(** * msbc: the sing-box configurator, embedded and verified

    The pipeline of [main.go] is embedded stage by stage: URI parser,
    endpoint registry, region classifier, singleton collapse, group
    synthesis and template merge.  A Go string is a byte string
    ([string]); the functions of Go's library that work on strings
    and numbers ([strings.Fields], [strings.TrimSpace], [strconv.Atoi],
    ...) are written out in [GoString].  What the program gets from
    [net/url], [encoding/json], [os] and the table [unicode.So] are
    parameters of the stages that use them.  The HTTP fetch, the
    base64 decoding and the writing of the files are not embedded. *)

From Stdlib Require Import ZArith Ascii DecimalString DecimalZ.
From stdpp Require Import gmap strings list fin_maps.

Local Open Scope Z_scope.

(** ** Strings as Go has them: byte sequences read as UTF-8 *)

Module GoString.

Definition byte_val (c : ascii) : Z := Z.of_N (N_of_ascii c).

Fixpoint slice_to (n : nat) (s : string) : string :=
  match n, s with
  | S n, String c s => String c (slice_to n s)
  | _, _ => ""
  end.

Fixpoint slice_from (n : nat) (s : string) : string :=
  match n, s with
  | S n, String _ s => slice_from n s
  | _, _ => s
  end.

Definition concat_bytes (ss : list string) : string := foldr String.app "" ss.

(** [utf8.RuneError], the rune that stands for an invalid byte. *)
Definition RuneError : Z := 0xFFFD.

(** The table [first] of [unicode/utf8] with its accept ranges:
    for a leading byte, the length of the sequence and the range
    allowed for the second byte. *)
Definition utf8_first (b0 : Z) : option (nat * Z * Z) :=
  if (0xC2 <=? b0) && (b0 <=? 0xDF) then Some (2%nat, 0x80, 0xBF)
  else if b0 =? 0xE0 then Some (3%nat, 0xA0, 0xBF)
  else if (0xE1 <=? b0) && (b0 <=? 0xEC) then Some (3%nat, 0x80, 0xBF)
  else if b0 =? 0xED then Some (3%nat, 0x80, 0x9F)
  else if (0xEE <=? b0) && (b0 <=? 0xEF) then Some (3%nat, 0x80, 0xBF)
  else if b0 =? 0xF0 then Some (4%nat, 0x90, 0xBF)
  else if (0xF1 <=? b0) && (b0 <=? 0xF3) then Some (4%nat, 0x80, 0xBF)
  else if b0 =? 0xF4 then Some (4%nat, 0x80, 0x8F)
  else None.

Definition between (lo hi b : Z) : bool := (lo <=? b) && (b <=? hi).

(** [utf8.DecodeRuneInString]: the first rune of [s] and its width
    in bytes; an invalid or truncated sequence is [RuneError] of
    width 1. *)
Definition DecodeRuneInString (s : string) : Z * nat :=
  match s with
  | "" => (RuneError, 0%nat)
  | String c0 t0 =>
    let b0 := byte_val c0 in
    if b0 <? 0x80 then (b0, 1%nat)
    else
      match utf8_first b0, t0 with
      | Some (sz, lo, hi), String c1 t1 =>
        let b1 := byte_val c1 in
        if negb (between lo hi b1) then (RuneError, 1%nat)
        else if (sz <=? 2)%nat then
          (Z.lor (Z.shiftl (Z.land b0 0x1F) 6) (Z.land b1 0x3F), 2%nat)
        else
          match t1 with
          | String c2 t2 =>
            let b2 := byte_val c2 in
            if negb (between 0x80 0xBF b2) then (RuneError, 1%nat)
            else if (sz <=? 3)%nat then
              (Z.lor (Z.shiftl (Z.land b0 0x0F) 12)
                 (Z.lor (Z.shiftl (Z.land b1 0x3F) 6) (Z.land b2 0x3F)),
               3%nat)
            else
              match t2 with
              | String c3 _ =>
                let b3 := byte_val c3 in
                if negb (between 0x80 0xBF b3) then (RuneError, 1%nat)
                else
                  (Z.lor (Z.shiftl (Z.land b0 0x07) 18)
                     (Z.lor (Z.shiftl (Z.land b1 0x3F) 12)
                        (Z.lor (Z.shiftl (Z.land b2 0x3F) 6)
                           (Z.land b3 0x3F))),
                   4%nat)
              | "" => (RuneError, 1%nat)
              end
          | "" => (RuneError, 1%nat)
          end
      | _, _ => (RuneError, 1%nat)
      end
  end.

(** [for _, r := range s]: the runes of [s], each with the bytes it
    was decoded from.  Every step consumes at least one byte, so the
    length of [s] is fuel enough (lemma [range_bytes]). *)
Fixpoint range_go (fuel : nat) (s : string) : list (Z * string) :=
  match fuel, s with
  | S fuel, String _ _ =>
    let '(r, size) := DecodeRuneInString s in
    (r, slice_to size s) :: range_go fuel (slice_from size s)
  | _, _ => []
  end.

Definition range (s : string) : list (Z * string) :=
  range_go (String.length s) s.

(** [unicode.IsSpace]: the Latin-1 cases and the White_Space table. *)
Definition IsSpace (r : Z) : bool :=
  between 0x09 0x0D r || (r =? 0x20) || (r =? 0x85) || (r =? 0xA0)
  || (r =? 0x1680) || between 0x2000 0x200A r
  || between 0x2028 0x2029 r || (r =? 0x202F) || (r =? 0x205F)
  || (r =? 0x3000).

(** [strings.Fields]: the maximal runs of non-space runes. *)
Fixpoint fields_go (cur : option string) (rs : list (Z * string))
  : list string :=
  match rs with
  | [] => option_list cur
  | (r, bs) :: rs =>
    if IsSpace r then option_list cur ++ fields_go None rs
    else fields_go (Some (from_option (λ f, f +:+ bs) bs cur)) rs
  end.

Definition Fields (s : string) : list string := fields_go None (range s).

(** [strings.Join]. *)
Fixpoint Join (elems : list string) (sep : string) : string :=
  match elems with
  | [] => ""
  | [e] => e
  | e :: elems => e +:+ sep +:+ Join elems sep
  end.

(** [strings.TrimSpace]: leading and trailing space runes removed. *)
Fixpoint trim_left (rs : list (Z * string)) : list (Z * string) :=
  match rs with
  | (r, _) :: rs' => if IsSpace r then trim_left rs' else rs
  | [] => []
  end.

Definition TrimSpace (s : string) : string :=
  concat_bytes (snd <$> reverse (trim_left (reverse (trim_left (range s))))).

(** [strings.Map]: a negative result drops the rune; otherwise the
    result is written in UTF-8.  The one mapping of the program is
    the identity on the runes it keeps, so a kept rune is written
    back as the bytes it came from, except that an invalid byte
    (read as [RuneError]) is written as the three bytes of U+FFFD. *)
Definition EncodeKept (r : Z) (bs : string) : string :=
  if r =? RuneError
  then String "239" (String "191" (String "189" ""))
  else bs.

Definition MapDrop (dropped : Z → bool) (s : string) : string :=
  concat_bytes ((λ p, if dropped p.1 then "" else EncodeKept p.1 p.2) <$> range s).

(** [strconv.Itoa]: base 10, a minus sign for negative numbers. *)
Definition Itoa (n : Z) : string := NilEmpty.string_of_int (Z.to_int n).

(** Go's [error] values, by the call that makes them. *)
Inductive error :=
| ErrSyntax (fn arg : string)      (* strconv: invalid syntax *)
| ErrRange (fn arg : string)       (* strconv: value out of range *)
| ErrURL (msg : string)            (* net/url: parse error *)
| ErrJSON (msg : string)           (* encoding/json: decode error *)
| ErrNotExist (path : string)      (* os: file does not exist *)
| ErrIO (path msg : string).       (* os: any other read failure *)

Definition is_digit (c : ascii) : bool := between 48 57 (byte_val c).

Fixpoint all_digits (s : string) : bool :=
  match s with
  | "" => true
  | String c s => is_digit c && all_digits s
  end.

Fixpoint digits_value (acc : Z) (s : string) : option Z :=
  match s with
  | "" => Some acc
  | String c s =>
    if is_digit c then digits_value (acc * 10 + (byte_val c - 48)) s
    else None
  end.

(** [strconv.Atoi] on a 64-bit platform: an optional sign, then
    decimal digits only; a value outside [int] is a range error. *)
Definition Atoi (s : string) : Z * option error :=
  let '(neg, body) :=
    match s with
    | String c t =>
      if decide (c = "-"%char) then (true, t)
      else if decide (c = "+"%char) then (false, t)
      else (false, s)
    | "" => (false, s)
    end in
  match body with
  | "" => (0, Some (ErrSyntax "Atoi" s))
  | _ =>
    match digits_value 0 body with
    | None => (0, Some (ErrSyntax "Atoi" s))
    | Some n =>
      let v := if neg then - n else n in
      if v <? - 2 ^ 63 then (- 2 ^ 63, Some (ErrRange "Atoi" s))
      else if 2 ^ 63 - 1 <? v then (2 ^ 63 - 1, Some (ErrRange "Atoi" s))
      else (v, None)
    end
  end.

(** [strings.Split(s, sep)] for a one-byte separator. *)
Fixpoint Split (s : string) (sep : ascii) : list string :=
  match s with
  | "" => [""]
  | String c s =>
    if decide (c = sep) then "" :: Split s sep
    else
      match Split s sep with
      | part :: parts => String c part :: parts
      | [] => [String c ""]
      end
  end.

(** [strings.LastIndexByte]. *)
Fixpoint LastIndexByte (s : string) (c : ascii) : option nat :=
  match s with
  | "" => None
  | String a s =>
    match LastIndexByte s c with
    | Some i => Some (S i)
    | None => if decide (a = c) then Some 0%nat else None
    end
  end.

Definition HasPrefix (s : string) (c : ascii) : bool :=
  match s with
  | String a _ => bool_decide (a = c)
  | "" => false
  end.

Fixpoint HasSuffix (s : string) (c : ascii) : bool :=
  match s with
  | "" => false
  | String a "" => bool_decide (a = c)
  | String _ s => HasSuffix s c
  end.

End GoString.

Import GoString.

Global Instance error_eq_dec : EqDecision error.
Proof. solve_decision. Defined.

(** ** Data model: the structs of [main.go] *)

Record BaseOutbound := {
  Type_ : string;
  Tag : string;
}.

Record TLSOptions := {
  Enabled : bool;
  ServerName : string;
  Insecure : bool;
}.

Record TrojanOutbound := {
  Base : BaseOutbound;
  Server : string;
  ServerPort : Z;
  Password : string;
  TLS : TLSOptions;
}.

Record SelectorOutbound := {
  SelBase : BaseOutbound;
  Outbounds : list string;
}.

Record GroupOutbound := {
  Selector : SelectorOutbound;
  InterruptExistConnections : bool;
}.

Global Instance BaseOutbound_eq_dec : EqDecision BaseOutbound.
Proof. solve_decision. Defined.
Global Instance TLSOptions_eq_dec : EqDecision TLSOptions.
Proof. solve_decision. Defined.
Global Instance TrojanOutbound_eq_dec : EqDecision TrojanOutbound.
Proof. solve_decision. Defined.
Global Instance SelectorOutbound_eq_dec : EqDecision SelectorOutbound.
Proof. solve_decision. Defined.
Global Instance GroupOutbound_eq_dec : EqDecision GroupOutbound.
Proof. solve_decision. Defined.

(** [ob.Tag] through the embedded [BaseOutbound], and [ob.Tag = t]. *)
Definition TagOf (ob : TrojanOutbound) : string := Tag (Base ob).

Definition set_Tag (ob : TrojanOutbound) (t : string) : TrojanOutbound :=
  {| Base := {| Type_ := Type_ (Base ob); Tag := t |};
     Server := Server ob; ServerPort := ServerPort ob;
     Password := Password ob; TLS := TLS ob |}.

(** ** Endpoint registry (main.go, lines 52-54 and 164-190) *)

Definition outboundKey (server : string) (port : Z) : string :=
  server +:+ ":" +:+ Itoa port.

(** The [(host, port)] pair that the spec calls the identity. *)
Definition identity (ob : TrojanOutbound) : string * Z :=
  (Server ob, ServerPort ob).

(** The spec's words for "in order of first occurrence": every value
    once, where it first stands. *)
Fixpoint first_seen {K} `{EqDecision K} (l : list K) : list K :=
  match l with
  | [] => []
  | x :: l => x :: filter (λ y, y ≠ x) (first_seen l)
  end.

Module Registry.

(** The two variables of the loop: the slice [outbounds] and the map
    [indexMap]. *)
Definition state : Type := list TrojanOutbound * gmap string nat.

Definition init : state := ([], ∅).

(** Lines 182-189.  [outbounds[idx] = *ob] panics in Go when [idx]
    is out of range: [None] stands for that panic. *)
Definition step (st : state) (ob : TrojanOutbound) : option state :=
  let '(outbounds, indexMap) := st in
  let key := outboundKey (Server ob) (ServerPort ob) in
  match indexMap !! key with
  | Some idx =>
    if decide (idx < length outbounds)%nat
    then Some (<[idx := ob]> outbounds, indexMap)
    else None
  | None =>
    Some (outbounds ++ [ob], <[key := length outbounds]> indexMap)
  end.

Fixpoint loop (st : state) (recs : list TrojanOutbound) : option state :=
  match recs with
  | [] => Some st
  | ob :: recs =>
    match step st ob with
    | Some st' => loop st' recs
    | None => None
    end
  end.

(** The registry's output sequence for a stream of parsed records. *)
Definition run (recs : list TrojanOutbound) : option (list TrojanOutbound) :=
  fst <$> loop init recs.

(** The spec's words: the last record of an identity. *)
Definition last_with (id : string * Z) (recs : list TrojanOutbound)
  : option TrojanOutbound :=
  last (filter (λ ob, identity ob = id) recs).

End Registry.

(** The key under which the registry files a record. *)
Definition key_of (ob : TrojanOutbound) : string :=
  outboundKey (Server ob) (ServerPort ob).

(** The loop invariant of the registry, after the records [seen]:
    the slice holds one record per identity, in order of first
    occurrence, each identity's record is its last one, and the map
    sends a key to the index of the record with that key. *)
Record registry_inv (seen : list TrojanOutbound) (st : Registry.state) : Prop := {
  inv_order : identity <$> st.1 = first_seen (identity <$> seen);
  inv_index : ∀ i ob, st.1 !! i = Some ob → st.2 !! key_of ob = Some i;
  inv_slot : ∀ k i, st.2 !! k = Some i → ∃ ob, st.1 !! i = Some ob ∧ key_of ob = k;
  inv_last : ∀ i ob, st.1 !! i = Some ob → Registry.last_with (identity ob) seen = Some ob;
}.

(** The record that the parser builds for the line
    [trojan://p@host:port#tag]. *)
Definition endpoint (tag host : string) (port : Z) : TrojanOutbound :=
  {| Base := {| Type_ := "trojan"; Tag := tag |};
     Server := host; ServerPort := port; Password := "p";
     TLS := {| Enabled := true; ServerName := ""; Insecure := false |} |}.

(** ** URI parser (main.go, lines 56-103 and 340-347) *)

(** What the program reads of a [*url.URL]: the scheme, the user name
    ([u.User.Username()], empty without user info), the host with its
    port, the decoded query ([u.Query()], pairs in order of appearance)
    and the fragment. *)
Record URL := {
  Scheme : string;
  Username : string;
  Host : string;
  Query : list (string * string);
  Fragment : string;
}.

Module Url.

(** [validOptionalPort] of net/url. *)
Definition validOptionalPort (port : string) : bool :=
  match port with
  | "" => true
  | String c digits =>
    bool_decide (c = ":"%char)
    && all_digits digits
  end.

(** [splitHostPort] of net/url: a trailing [:digits] is the port,
    and the brackets of an IPv6 literal are dropped from the host. *)
Definition splitHostPort (hostPort : string) : string * string :=
  let '(host, port) :=
    match LastIndexByte hostPort ":" with
    | Some colon =>
      if validOptionalPort (slice_from colon hostPort)
      then (slice_to colon hostPort, slice_from (S colon) hostPort)
      else (hostPort, "")
    | None => (hostPort, "")
    end in
  let host :=
    if HasPrefix host "[" && HasSuffix host "]"
    then slice_to (String.length host - 2) (slice_from 1 host)
    else host in
  (host, port).

Definition Hostname (u : URL) : string := (splitHostPort (Host u)).1.
Definition Port (u : URL) : string := (splitHostPort (Host u)).2.

(** [url.Values.Get]: the first value of the key, or the empty
    string. *)
Fixpoint Get (q : list (string * string)) (key : string) : string :=
  match q with
  | [] => ""
  | (k, v) :: q => if decide (k = key) then v else Get q key
  end.

End Url.

Section Parser.

(** [url.Parse] and the table [unicode.So] belong to Go's library;
    the parser is written over them. *)
Variable url_Parse : string → error + URL.
Variable unicode_So : Z → bool.

(** Lines 340-347. *)
Definition removeEmoji (s : string) : string := MapDrop unicode_So s.

(** Lines 56-103.  The result is Go's pair of a record pointer and an error:
    [(None, None)] is the [nil, nil] of an ignored line.  [err] is
    the variable of line 57, which is nil from line 62 on. *)
Definition parseTrojanURL (raw : string)
  : option TrojanOutbound * option error :=
  match url_Parse (TrimSpace raw) with
  | inl e => (None, Some e)
  | inr u =>
    let err : option error := None in
    if decide (Scheme u ≠ "trojan") then (None, None)
    else
      let password := Username u in
      let host := Url.Hostname u in
      let portStr := Url.Port u in
      if decide (portStr = "") then (None, err)
      else
        let '(port, err) := Atoi portStr in
        match err with
        | Some _ => (None, err)
        | None =>
          let q := Query u in
          let allowInsecure := bool_decide (Url.Get q "allowInsecure" = "1") in
          let sni := Url.Get q "sni" in
          let rawTag := Fragment u in
          let rawTag := TrimSpace rawTag in
          let tag := TrimSpace (removeEmoji rawTag) in
          (Some {| Base := {| Type_ := "trojan"; Tag := tag |};
                   Server := host;
                   ServerPort := port;
                   Password := password;
                   TLS := {| Enabled := true;
                             ServerName := sni;
                             Insecure := allowInsecure |} |},
           None)
        end
  end.

(** Lines 167-190: the loop over the decoded lines, feeding the
    registry. *)
Fixpoint read_lines (st : Registry.state) (lines : list string)
  : option Registry.state :=
  match lines with
  | [] => Some st
  | line :: lines =>
    let line := TrimSpace line in
    if decide (line = "") then read_lines st lines
    else
      match parseTrojanURL line with
      | (_, Some _) => read_lines st lines
      | (None, None) => read_lines st lines
      | (Some ob, None) =>
        match Registry.step st ob with
        | Some st' => read_lines st' lines
        | None => None
        end
      end
  end.

(** The records that reach the registry, in input order. *)
Definition parsed_records (lines : list string) : list TrojanOutbound :=
  omap (λ line,
          let line := TrimSpace line in
          if decide (line = "") then None
          else match parseTrojanURL line with
               | (Some ob, None) => Some ob
               | _ => None
               end) lines.

End Parser.

(** What [url.Parse] returns on the lines used as examples below; for
    this table every other line is a parse error. *)
Definition sample_url_Parse (raw : string) : error + URL :=
  if decide (raw = "trojan://p@1.2.3.4:443?sni=a#SG%2001") then
    inr {| Scheme := "trojan"; Username := "p"; Host := "1.2.3.4:443";
           Query := [("sni", "a")]; Fragment := "SG 01" |}
  else if decide (raw = "trojan://p@1.2.3.4:443?sni=a#SG%2002") then
    inr {| Scheme := "trojan"; Username := "p"; Host := "1.2.3.4:443";
           Query := [("sni", "a")]; Fragment := "SG 02" |}
  else if decide (raw = "trojan://p@example.com:0#x") then
    inr {| Scheme := "trojan"; Username := "p"; Host := "example.com:0";
           Query := []; Fragment := "x" |}
  else if decide (raw = "trojan://p@example.com#x") then
    inr {| Scheme := "trojan"; Username := "p"; Host := "example.com";
           Query := []; Fragment := "x" |}
  else if decide (raw = "trojan://p@example.com:99999999999999999999#x") then
    inr {| Scheme := "trojan"; Username := "p";
           Host := "example.com:99999999999999999999";
           Query := []; Fragment := "x" |}
  else if decide (raw = "trojan://p@a.example:443#A%20B%20C") then
    inr {| Scheme := "trojan"; Username := "p"; Host := "a.example:443";
           Query := []; Fragment := "A B C" |}
  else if decide (raw = "trojan://p@b.example:443#A%20B") then
    inr {| Scheme := "trojan"; Username := "p"; Host := "b.example:443";
           Query := []; Fragment := "A B" |}
  else if decide (raw = "trojan://p@a.example:443#SG%2001") then
    inr {| Scheme := "trojan"; Username := "p"; Host := "a.example:443";
           Query := []; Fragment := "SG 01" |}
  else if decide (raw = "trojan://p@b.example:443#SG%2001") then
    inr {| Scheme := "trojan"; Username := "p"; Host := "b.example:443";
           Query := []; Fragment := "SG 01" |}
  else if decide (raw = "vmess://abc") then
    inr {| Scheme := "vmess"; Username := ""; Host := "abc";
           Query := []; Fragment := "" |}
  else inl (ErrURL "parse error").

(** The part of the table [unicode.So] that the examples need: the
    regional indicator symbols, of which flags are made. *)
Definition sample_So (r : Z) : bool := between 0x1F1E6 0x1F1FF r.

(** ** Region classifier (main.go, lines 105-111 and 194-207) *)

Definition extractRegion (tag : string) : string :=
  let fields := Fields tag in
  if decide (length fields ≤ 1)%nat then tag
  else Join (take (length fields - 1) fields) " ".

(** The spec's words for the classifier: the label is split at every
    white-space rune, and the tokens are the pieces that are not
    empty. *)
Module Tokens.

Fixpoint pieces (rs : list (Z * string)) : list (list (Z * string)) :=
  match rs with
  | [] => [[]]
  | (r, bs) :: rs =>
    if IsSpace r then [] :: pieces rs
    else
      match pieces rs with
      | p :: ps => ((r, bs) :: p) :: ps
      | [] => [[(r, bs)]]
      end
  end.

Definition bytes_of (p : list (Z * string)) : string := concat_bytes p.*2.

Definition split_on_white_space (s : string) : list string :=
  bytes_of <$> filter (λ p, p ≠ []) (pieces (range s)).

End Tokens.

Module Classifier.

(** [regionTags], [regionIndex] and [regionOrder]. *)
Definition state : Type :=
  gmap string (list string) * gmap string nat * list string.

Definition init : state := (∅, ∅, []).

(** Lines 199-206.  Reading a missing key of [regionTags] gives the
    nil slice. *)
Definition step (st : state) (ob : TrojanOutbound) : state :=
  let '(regionTags, regionIndex, regionOrder) := st in
  let region := extractRegion (TagOf ob) in
  let '(regionIndex, regionOrder) :=
    match regionIndex !! region with
    | None => (<[region := length regionOrder]> regionIndex,
               regionOrder ++ [region])
    | Some _ => (regionIndex, regionOrder)
    end in
  (<[region := default [] (regionTags !! region) ++ [TagOf ob]]> regionTags,
   regionIndex, regionOrder).

Definition classify (outbounds : list TrojanOutbound) : state :=
  foldl step init outbounds.

End Classifier.

(** The spec's words: the region of a record, and the member labels of
    a region in the order of the records. *)
Definition region_of (ob : TrojanOutbound) : string := extractRegion (TagOf ob).

Definition members (outbounds : list TrojanOutbound) (region : string)
  : list string :=
  TagOf <$> filter (λ ob, region_of ob = region) outbounds.

(** ** Singleton collapse (main.go, lines 209-222) *)

Module Collapse.

(** Lines 213-218: the first record whose tag is [originalTag] is
    renamed, then the search stops. *)
Fixpoint rename_first (originalTag region : string)
  (outbounds : list TrojanOutbound) : list TrojanOutbound :=
  match outbounds with
  | [] => []
  | ob :: outbounds =>
    if decide (TagOf ob = originalTag) then set_Tag ob region :: outbounds
    else ob :: rename_first originalTag region outbounds
  end.

Definition state : Type := list TrojanOutbound * gmap string (list string).

(** One iteration of the [range] over [regionTags]; the write
    [regionTags[region][0] = region] goes to the slice the map
    holds. *)
Definition step (st : state) (region : string) : state :=
  let '(outbounds, regionTags) := st in
  match regionTags !! region with
  | Some [originalTag] =>
    (rename_first originalTag region outbounds,
     <[region := [region]]> regionTags)
  | _ => st
  end.

(** Go leaves the order of a [range] over a map unspecified: the
    order the runtime picks is the argument [visit], a permutation of
    the keys of [regionTags]. *)
Definition run (visit : list string) (st : state) : state :=
  foldl step st visit.

Definition visit_order (visit : list string)
  (regionTags : gmap string (list string)) : Prop :=
  visit ≡ₚ (map_to_list regionTags).*1.

End Collapse.

(** ** Group synthesizer (main.go, lines 245-279) *)

Module Synth.

Definition urltest (region : string) (tags : list string) : GroupOutbound :=
  {| Selector := {| SelBase := {| Type_ := "urltest";
                                  Tag := region +:+ "-auto" |};
                    Outbounds := tags |};
     InterruptExistConnections := false |}.

Definition selector (region : string) (tags : list string) : GroupOutbound :=
  {| Selector := {| SelBase := {| Type_ := "selector"; Tag := region |};
                    Outbounds := [region +:+ "-auto"] ++ tags |};
     InterruptExistConnections := true |}.

(** Lines 248-278. *)
Definition step (regionTags : gmap string (list string))
  (groupOutbounds : list GroupOutbound) (region : string)
  : list GroupOutbound :=
  let tags := default [] (regionTags !! region) in
  if decide (length tags ≤ 1)%nat then groupOutbounds
  else groupOutbounds ++ [urltest region tags; selector region tags].

Definition run (regionTags : gmap string (list string))
  (regionOrder : list string) : list GroupOutbound :=
  foldl (step regionTags) [] regionOrder.

End Synth.

(** ** The in-memory pipeline from the registry's output to the two
    generated record lists (main.go, lines 194-279) *)

Record generated := {
  servers : list TrojanOutbound;       (* config/servers.json *)
  groups : list GroupOutbound;         (* config/groups.json *)
  regionOrder : list string;
  regionTags : gmap string (list string);
}.

Definition pipeline (visit : list string) (outbounds : list TrojanOutbound)
  : generated :=
  let '(regionTags, _, regionOrder) := Classifier.classify outbounds in
  let '(outbounds, regionTags) := Collapse.run visit (outbounds, regionTags) in
  {| servers := outbounds;
     groups := Synth.run regionTags regionOrder;
     regionOrder := regionOrder;
     regionTags := regionTags |}.

(** ** Template merger (main.go, lines 299-312, 349-405) *)

(** [json.RawMessage]: the bytes of one JSON value, as they stand in
    the file. *)
Definition RawMessage : Type := string.

(** The two dynamic types that [loadSelectors] stores in its [[]any]. *)
Inductive entry :=
| Raw (raw : RawMessage)
| Sel (sel : SelectorOutbound).

(** A decoded JSON value; an object keeps its members in file order. *)
Local Unset Elimination Schemes.
Inductive json :=
| JNull
| JBool (b : bool)
| JNumber (literal : string)
| JString (s : string)
| JArray (elems : list json)
| JObject (members : list (string * json)).
Local Set Elimination Schemes.

Inductive outcome (A : Type) :=
| Fatal (err : error)          (* log.Fatal: the run is aborted *)
| Continue (a : A).
Arguments Fatal {A} err.
Arguments Continue {A} a.

Module Json.

Definition upper (c : ascii) : ascii :=
  if between 97 122 (byte_val c)
  then ascii_of_N (N_of_ascii c - 32)
  else c.

(** encoding/json matches an object key with a struct field by exact
    name, else by folded name: ASCII letters without case, and the two
    letters outside ASCII that fold to one inside it (U+017F to S,
    U+212A to K). *)
Fixpoint foldName (s : string) : string :=
  match s with
  | "" => ""
  | String c s' =>
    match c, s' with
    | "197"%char, String "191" s'' => String "S" (foldName s'')
    | "226"%char, String "132" (String "170" s'') => String "K" (foldName s'')
    | _, _ => String (upper c) (foldName s')
    end
  end.

Definition key_is (name key : string) : bool :=
  bool_decide (foldName key = foldName name).

Definition keep_first (e1 e2 : option error) : option error :=
  match e1 with
  | Some _ => e1
  | None => e2
  end.

(** A value decoded into a [string] field: [null] leaves the field
    as it is, a value of another kind is an error and leaves it too. *)
Definition into_string (old : string) (j : json) : string * option error :=
  match j with
  | JString s => (s, None)
  | JNull => (old, None)
  | _ => (old, Some (ErrJSON "cannot unmarshal value into Go value of type string"))
  end.

(** A value decoded into a [[]string] field. *)
Definition into_strings (old : list string) (j : json)
  : list string * option error :=
  match j with
  | JNull => ([], None)
  | JArray elems =>
    let rs := into_string "" <$> elems in
    (rs.*1, foldl keep_first None rs.*2)
  | _ => (old, Some (ErrJSON "cannot unmarshal value into Go value of type []string"))
  end.

(** [json.Unmarshal(raw, &base)] for the anonymous struct of lines
    366-368, from the decoded value: [base.Type] and the error. *)
Definition into_base (j : json) : string * option error :=
  match j with
  | JNull => ("", None)
  | JObject members =>
    foldl (λ '(ty, err) '(k, v),
             if key_is "type" k
             then let '(ty, e) := into_string ty v in (ty, keep_first err e)
             else (ty, err))
          ("", None) members
  | _ => ("", Some (ErrJSON "cannot unmarshal value into Go struct"))
  end.

Definition zero_SelectorOutbound : SelectorOutbound :=
  {| SelBase := {| Type_ := ""; Tag := "" |}; Outbounds := [] |}.

(** [json.Unmarshal(raw, &sel)] for [SelectorOutbound] (lines 18-21
    and 36-40), from the decoded value.  The struct has the three
    fields [type], [tag] and [outbounds]; a member with any other
    key is skipped. *)
Definition into_selector_member (acc : SelectorOutbound * option error)
  (member : string * json) : SelectorOutbound * option error :=
  let '(sel, err) := acc in
  let '(k, v) := member in
  if key_is "type" k then
    let '(ty, e) := into_string (Type_ (SelBase sel)) v in
    ({| SelBase := {| Type_ := ty; Tag := Tag (SelBase sel) |};
        Outbounds := Outbounds sel |}, keep_first err e)
  else if key_is "tag" k then
    let '(tag, e) := into_string (Tag (SelBase sel)) v in
    ({| SelBase := {| Type_ := Type_ (SelBase sel); Tag := tag |};
        Outbounds := Outbounds sel |}, keep_first err e)
  else if key_is "outbounds" k then
    let '(outs, e) := into_strings (Outbounds sel) v in
    ({| SelBase := SelBase sel; Outbounds := outs |}, keep_first err e)
  else (sel, err).

Definition into_selector (j : json) : SelectorOutbound * option error :=
  match j with
  | JNull => (zero_SelectorOutbound, None)
  | JObject members =>
    foldl into_selector_member (zero_SelectorOutbound, None) members
  | _ => (zero_SelectorOutbound,
          Some (ErrJSON "cannot unmarshal value into Go struct"))
  end.

(** The member of an object with exactly this key (the last one, as
    for Go's decoder, when the key is repeated). *)
Definition member (j : json) (key : string) : option json :=
  match j with
  | JObject members =>
    snd <$> last (filter (λ m, m.1 = key) members)
  | _ => None
  end.

End Json.

(** Lines 390-405: the set [seen] is filled from [dst], then every
    value of [src] not yet seen is appended and marked. *)
Module AppendUnique.

Definition mark (seen : gset string) (v : string) : gset string :=
  {[v]} ∪ seen.

Definition step (st : gset string * list string) (v : string)
  : gset string * list string :=
  let '(seen, dst) := st in
  if decide (v ∈ seen) then (seen, dst)
  else (mark seen v, dst ++ [v]).

End AppendUnique.

Definition appendUnique (dst src : list string) : list string :=
  let seen := foldl AppendUnique.mark ∅ dst in
  (foldl AppendUnique.step (seen, dst) src).2.

Section Template.

(** The file system and the JSON reader of Go's library: [os.ReadFile],
    the decoding of the template file into [SelectorsConfig] (the raw
    bytes of each element of its [outbounds] array), and the reading
    of one raw value. *)
Variable os_ReadFile : string → error + string.
Variable Unmarshal_SelectorsConfig : string → error + list RawMessage.
Variable json_Decode : RawMessage → error + json.

Definition os_IsNotExist (err : error) : bool :=
  match err with
  | ErrNotExist _ => true
  | _ => false
  end.

Definition Unmarshal_base (raw : RawMessage) : string * option error :=
  match json_Decode raw with
  | inl e => ("", Some e)
  | inr j => Json.into_base j
  end.

Definition Unmarshal_selector (raw : RawMessage)
  : SelectorOutbound * option error :=
  match json_Decode raw with
  | inl e => (Json.zero_SelectorOutbound, Some e)
  | inr j => Json.into_selector j
  end.

(** Lines 363-387: the loop over [cfg.Outbounds]. *)
Fixpoint load_entries (result : list entry) (raws : list RawMessage)
  : list entry * option error :=
  match raws with
  | [] => (result, None)
  | raw :: raws =>
    let '(base_Type, err) := Unmarshal_base raw in
    match err with
    | Some _ => ([], err)
    | None =>
      if decide (base_Type ≠ "selector")
      then load_entries (result ++ [Raw raw]) raws
      else
        let '(sel, err) := Unmarshal_selector raw in
        match err with
        | Some _ => ([], err)
        | None => load_entries (result ++ [Sel sel]) raws
        end
    end
  end.

(** What the loop of [loadSelectors] stores for one raw entry, when
    the entry decodes. *)
Definition load_entry (raw : RawMessage) : option entry :=
  match Unmarshal_base raw with
  | (_, Some _) => None
  | (base_Type, None) =>
    if decide (base_Type ≠ "selector") then Some (Raw raw)
    else
      match Unmarshal_selector raw with
      | (_, Some _) => None
      | (sel, None) => Some (Sel sel)
      end
  end.

(** Whether the content of the template decodes: the file as a
    [SelectorsConfig], every entry for its [type], and every entry
    of type [selector] as a [SelectorOutbound]. *)
Definition entry_decodes (raw : RawMessage) : bool :=
  match Unmarshal_base raw with
  | (_, Some _) => false
  | (base_Type, None) =>
    if decide (base_Type ≠ "selector") then true
    else bool_decide ((Unmarshal_selector raw).2 = None)
  end.

Definition template_decodes (data : string) : bool :=
  match Unmarshal_SelectorsConfig data with
  | inl _ => false
  | inr raws => forallb entry_decodes raws
  end.

(** Lines 349-388.  The result is Go's pair of a slice and an error;
    the nil slice is the empty list. *)
Definition loadSelectors (path : string) : list entry * option error :=
  match os_ReadFile path with
  | inl err =>
    if os_IsNotExist err then ([], None) else ([], Some err)
  | inr data =>
    match Unmarshal_SelectorsConfig data with
    | inl err => ([], Some err)
    | inr outbounds => load_entries [] outbounds
    end
  end.

(** Lines 304-312: the loop that extends every selector, writing
    [selectors[i]] in place. *)
Fixpoint merge_loop (regionOrder : list string) (i : nat)
  (rest selectors : list entry) : list entry :=
  match rest with
  | [] => selectors
  | Raw _ :: rest => merge_loop regionOrder (S i) rest selectors
  | Sel sel :: rest =>
    let sel := {| SelBase := SelBase sel;
                  Outbounds := appendUnique (Outbounds sel) regionOrder |} in
    merge_loop regionOrder (S i) rest (<[i := Sel sel]> selectors)
  end.

Definition merge (regionOrder : list string) (selectors : list entry)
  : list entry :=
  merge_loop regionOrder 0 selectors selectors.

(** What the loop does to one entry. *)
Definition merge_entry (regionOrder : list string) (ob : entry) : entry :=
  match ob with
  | Raw raw => Raw raw
  | Sel sel => Sel {| SelBase := SelBase sel;
                      Outbounds := appendUnique (Outbounds sel) regionOrder |}
  end.

(** Lines 299-312. *)
Definition merge_template (path : string) (regionOrder : list string)
  : outcome (list entry) :=
  let '(selectors, err) := loadSelectors path in
  match err with
  | Some e => Fatal e
  | None => Continue (merge regionOrder selectors)
  end.

(** What [json.Marshal] writes for an entry of the merged list, apart
    from the member list of a selector: a raw entry is written as the
    value it holds, a [SelectorOutbound] as the fields [type] and
    [tag] of its struct (and [outbounds], left out here). *)
Definition written_member (e : entry) (key : string) : option json :=
  match e with
  | Raw raw =>
    match json_Decode raw with
    | inr j => Json.member j key
    | inl _ => None
    end
  | Sel sel =>
    if decide (key = "type") then Some (JString (Type_ (SelBase sel)))
    else if decide (key = "tag") then Some (JString (Tag (SelBase sel)))
    else None
  end.

End Template.

(** ** The run, from the decoded body on (main.go, lines 161-312) *)

Section Main.

Variable url_Parse : string → error + URL.
Variable unicode_So : Z → bool.
Variable os_ReadFile : string → error + string.
Variable Unmarshal_SelectorsConfig : string → error + list RawMessage.
Variable json_Decode : RawMessage → error + json.

(** The lists that the run generates: the records and groups of
    [pipeline] and the merged template entries.  [None] is a panic of
    the registry's index write; [visit] is the order in which the
    runtime ranges over [regionTags]. *)
Definition configure (visit : list string) (decoded : string)
  : option (outcome (generated * list entry)) :=
  let lines := Split decoded "010" in
  match read_lines url_Parse unicode_So Registry.init lines with
  | None => None
  | Some (outbounds, _) =>
    let g := pipeline visit outbounds in
    match merge_template os_ReadFile Unmarshal_SelectorsConfig json_Decode
            "config/selectors.scheme.json" (regionOrder g) with
    | Fatal err => Some (Fatal err)
    | Continue selectors => Some (Continue (g, selectors))
    end
  end.

End Main.

(** ** A template for the examples *)

Module Sample.

Definition quoted (s : string) : string :=
  String "034" (s +:+ String "034" "").

(** The entry [{"type":"direct","tag":"direct"}]. *)
Definition raw_direct : RawMessage :=
  "{" +:+ quoted "type" +:+ ":" +:+ quoted "direct" +:+ ","
  +:+ quoted "tag" +:+ ":" +:+ quoted "direct" +:+ "}".

(** The entry
    [{"type":"selector","tag":"proxy","outbounds":["direct"],"default":"direct"}]. *)
Definition raw_proxy : RawMessage :=
  "{" +:+ quoted "type" +:+ ":" +:+ quoted "selector" +:+ ","
  +:+ quoted "tag" +:+ ":" +:+ quoted "proxy" +:+ ","
  +:+ quoted "outbounds" +:+ ":[" +:+ quoted "direct" +:+ "],"
  +:+ quoted "default" +:+ ":" +:+ quoted "direct" +:+ "}".

(** The entry [{"type":"selector","outbounds":7}], whose member list
    is no list. *)
Definition raw_bad : RawMessage :=
  "{" +:+ quoted "type" +:+ ":" +:+ quoted "selector" +:+ ","
  +:+ quoted "outbounds" +:+ ":7}".

Definition template : string :=
  "{" +:+ quoted "outbounds" +:+ ":[" +:+ raw_direct +:+ ","
  +:+ raw_proxy +:+ "]}".

Definition bad_template : string :=
  "{" +:+ quoted "outbounds" +:+ ":[" +:+ raw_bad +:+ "]}".

(** Three files: the template, a template with the bad entry, a file
    cut short; no other path exists. *)
Definition ReadFile (path : string) : error + string :=
  if decide (path = "config/selectors.scheme.json") then inr template
  else if decide (path = "config/bad.scheme.json") then inr bad_template
  else if decide (path = "config/cut.scheme.json") then inr "{"
  else inl (ErrNotExist path).

(** What encoding/json does on these texts. *)
Definition Unmarshal_SelectorsConfig (data : string)
  : error + list RawMessage :=
  if decide (data = template) then inr [raw_direct; raw_proxy]
  else if decide (data = bad_template) then inr [raw_bad]
  else inl (ErrJSON "unexpected end of JSON input").

Definition json_Decode (raw : RawMessage) : error + json :=
  if decide (raw = raw_direct) then
    inr (JObject [("type", JString "direct"); ("tag", JString "direct")])
  else if decide (raw = raw_proxy) then
    inr (JObject [("type", JString "selector"); ("tag", JString "proxy");
                  ("outbounds", JArray [JString "direct"]);
                  ("default", JString "direct")])
  else if decide (raw = raw_bad) then
    inr (JObject [("type", JString "selector"); ("outbounds", JNumber "7")])
  else inl (ErrJSON "invalid character").

End Sample.


(** ** Publisher (main.go, lines 407-451) *)

(** [strings.HasSuffix]. *)
Definition strings_HasSuffix (s suffix : string) : bool :=
  bool_decide (String.length suffix ≤ String.length s)%nat
  && bool_decide
       (slice_from (String.length s - String.length suffix) s = suffix).

(** What the program reads of an [os.DirEntry]. *)
Record DirEntry := {
  Name : string;
  IsDir : bool;
}.

Section Publisher.

(** The file system is a state [world] that the calls of package [os]
    read and change; [File] is an open file.  [filepath.Join] is taken
    as it is. *)
Variable world : Type.
Variable File : Type.
Variable os_ReadDir : world → string → error + list DirEntry.
Variable os_MkdirAll : world → string → world * option error.
Variable os_Open : world → string → world * (error + File).
Variable os_Create : world → string → world * (error + File).
Variable io_Copy : world → File → File → world * option error.
Variable os_Close : world → File → world.
Variable filepath_Join : string → string → string.

(** The state of the loop: the file system, the deferred closes (last
    deferred first) and the lines logged, as pairs of source and
    destination path. *)
Record export_state := {
  fs : world;
  deferred : list File;
  exported : list (string * string);
}.

(** The deferred [Close] calls, run when the function returns. *)
Definition run_deferred (st : export_state) : export_state :=
  {| fs := foldl os_Close (fs st) (deferred st);
     deferred := [];
     exported := exported st |}.

(** Lines 417-448. *)
Fixpoint export_loop (srcDir dstDir : string) (st : export_state)
  (entries : list DirEntry) : export_state * option error :=
  match entries with
  | [] => (st, None)
  | entry :: entries =>
    if IsDir entry then export_loop srcDir dstDir st entries
    else
      let name := Name entry in
      if strings_HasSuffix name ".scheme.json"
      then export_loop srcDir dstDir st entries
      else
        let srcPath := filepath_Join srcDir name in
        let dstPath := filepath_Join dstDir name in
        match os_Open (fs st) srcPath with
        | (w, inl err) =>
          ({| fs := w; deferred := deferred st; exported := exported st |},
           Some err)
        | (w, inr srcFile) =>
          match os_Create w dstPath with
          | (w, inl err) =>
            ({| fs := w; deferred := srcFile :: deferred st;
                exported := exported st |}, Some err)
          | (w, inr dstFile) =>
            match io_Copy w dstFile srcFile with
            | (w, Some err) =>
              ({| fs := w; deferred := dstFile :: srcFile :: deferred st;
                  exported := exported st |}, Some err)
            | (w, None) =>
              export_loop srcDir dstDir
                {| fs := w; deferred := dstFile :: srcFile :: deferred st;
                   exported := exported st ++ [(srcPath, dstPath)] |}
                entries
            end
          end
        end
  end.

(** Lines 407-451. *)
Definition exportConfig (w : world) (srcDir dstDir : string)
  : export_state * option error :=
  match os_ReadDir w srcDir with
  | inl err => ({| fs := w; deferred := []; exported := [] |}, Some err)
  | inr entries =>
    match os_MkdirAll w dstDir with
    | (w, Some err) =>
      ({| fs := w; deferred := []; exported := [] |}, Some err)
    | (w, None) =>
      let '(st, err) :=
        export_loop srcDir dstDir
          {| fs := w; deferred := []; exported := [] |} entries in
      (run_deferred st, err)
    end
  end.

(** The files of a listing that are to be published: the regular files
    that are no templates, as pairs of source and destination path. *)
Definition publishable (srcDir dstDir : string) (entries : list DirEntry)
  : list (string * string) :=
  (λ entry, (filepath_Join srcDir (Name entry),
             filepath_Join dstDir (Name entry)))
  <$> filter (λ entry, IsDir entry = false
                       ∧ strings_HasSuffix (Name entry) ".scheme.json" = false)
             entries.

End Publisher.

(** ** Words for the properties of the collapse *)

(** The records as the collapse is meant to leave them: the only
    member of a region carries the region's key as its label. *)
Definition collapsed (outbounds : list TrojanOutbound) : list TrojanOutbound :=
  (λ ob, if decide (length (members outbounds (region_of ob)) = 1%nat)
         then set_Tag ob (region_of ob) else ob) <$> outbounds.

(** No region of one member has a key that is the label of another
    record. *)
Definition no_label_collision (outbounds : list TrojanOutbound) : Prop :=
  ∀ i j ob ob',
    outbounds !! i = Some ob → outbounds !! j = Some ob' → i ≠ j →
    length (members outbounds (region_of ob)) = 1%nat →
    TagOf ob' ≠ region_of ob.

(** A record without its label: what the collapse must not touch. *)
Definition unlabelled (ob : TrojanOutbound) : TrojanOutbound := set_Tag ob "".

(** The records after the regions [visited] have been collapsed. *)
Definition collapsed_after (visited : list string)
    (outbounds : list TrojanOutbound) : list TrojanOutbound :=
  (λ ob, if decide (region_of ob ∈ visited
                    ∧ length (members outbounds (region_of ob)) = 1%nat)
         then set_Tag ob (region_of ob) else ob) <$> outbounds.

(** ** Words for the properties of the string functions *)

(** A byte of the form 10xxxxxx, which in UTF-8 never starts a rune. *)
Definition continuation_byte (c : ascii) : bool :=
  between 0x80 0xBF (byte_val c).

(** A string that does not start with a continuation byte. *)
Definition starts_clean (s : string) : Prop :=
  match s with
  | "" => True
  | String c _ => continuation_byte c = false
  end.

(** The runes of a string, without the bytes they were read from. *)
Definition runes (s : string) : list Z := (range s).*1.

(** The pieces that [TrimSpace] keeps. *)
Definition trim_both (rs : list (Z * string)) : list (Z * string) :=
  reverse (trim_left (reverse (trim_left rs))).

Definition all_space (rs : list (Z * string)) : Prop :=
  Forall (λ p, IsSpace p.1 = true) rs.

Definition no_space (rs : list (Z * string)) : Prop :=
  Forall (λ p, IsSpace p.1 = false) rs.

(** A token as [Fields] gives them: not empty, no white space. *)
Definition token (t : string) : Prop := t ≠ "" ∧ no_space (range t).

(** A proof step for the branches of [DecodeRuneInString]: the decoder
    on the bytes of the first rune takes the branch it took on the
    whole string. *)
Ltac decode_branch :=
  cbn [snd slice_to]; unfold DecodeRuneInString; cbv zeta;
  repeat match goal with H : _ = _ |- _ => rewrite H end;
  reflexivity.

(** ** A file system for the examples *)

Module SampleFS.

(** The files by path, with their content; an open file is its path
    and the content read from it. *)
Definition world : Type := list (string * string).
Definition File : Type := (string * string)%type.

Definition listing : list DirEntry :=
  [ {| Name := "servers.json"; IsDir := false |};
    {| Name := "selectors.scheme.json"; IsDir := false |};
    {| Name := "backup"; IsDir := true |};
    {| Name := "groups.json"; IsDir := false |} ].

Definition ReadDir (w : world) (dir : string) : error + list DirEntry :=
  if decide (dir = "config") then inr listing else inl (ErrNotExist dir).

Definition MkdirAll (w : world) (dir : string) : world * option error :=
  (w, None).

Definition content (w : world) (path : string) : option string :=
  (λ hit, hit.2.2) <$> list_find (λ f, f.1 = path) w.

Definition Open (w : world) (path : string) : world * (error + File) :=
  match content w path with
  | Some data => (w, inr (path, data))
  | None => (w, inl (ErrNotExist path))
  end.

Definition Create (w : world) (path : string) : world * (error + File) :=
  ((path, "") :: filter (λ f, f.1 ≠ path) w, inr (path, "")).

Definition Copy (w : world) (dst src : File) : world * option error :=
  ((dst.1, src.2) :: filter (λ f, f.1 ≠ dst.1) w, None).

Definition Close (w : world) (f : File) : world := w.

Definition Join (dir name : string) : string := dir +:+ "/" +:+ name.

End SampleFS.

(** * Properties *)

(** ** Strings *)

Lemma app_cons (c : ascii) (s t : string) : String c s +:+ t = String c (s +:+ t).
Proof. done. Qed.

Lemma app_empty_r (s : string) : s +:+ "" = s.
Proof. induction s as [|c s IH]; [done|]. by rewrite app_cons, IH. Qed.

Lemma app_nil_l (t : string) : "" +:+ t = t.
Proof. done. Qed.

Lemma LastIndexByte_cons_None (a c : ascii) (s : string) :
  LastIndexByte (String a s) c = None ↔ a ≠ c ∧ LastIndexByte s c = None.
Proof.
  simpl. destruct (LastIndexByte s c); [intuition congruence|].
  destruct (decide (a = c)); intuition congruence.
Qed.

Lemma LastIndexByte_app_sep (s t : string) (c : ascii) :
  LastIndexByte (s +:+ String c t) c ≠ None.
Proof.
  induction s as [|a s IH]; rewrite ?app_nil_l, ?app_cons;
    rewrite LastIndexByte_cons_None; intuition congruence.
Qed.

(** A separator byte that the right-hand parts do not contain splits a
    string in one way only. *)
Lemma app_sep_inj (c : ascii) (s1 s2 t1 t2 : string) :
  LastIndexByte t1 c = None → LastIndexByte t2 c = None →
  s1 +:+ String c t1 = s2 +:+ String c t2 → s1 = s2 ∧ t1 = t2.
Proof.
  intros H1 H2. revert s2.
  induction s1 as [|a s1 IH]; intros [|b s2]; rewrite ?app_nil_l, ?app_cons.
  - by intros [= ->].
  - intros [= ? Ht]. subst b. rewrite Ht in H1.
    by destruct (LastIndexByte_app_sep s2 t2 c).
  - intros [= ? Ht]. subst a. rewrite <- Ht in H2.
    by destruct (LastIndexByte_app_sep s1 t1 c).
  - intros [= ? Heq]. subst b. by destruct (IH _ Heq) as [-> ->].
Qed.

Lemma string_of_uint_no_colon (d : Decimal.uint) :
  LastIndexByte (NilEmpty.string_of_uint d) ":" = None.
Proof.
  induction d; simpl; [done|..]; by rewrite IHd.
Qed.

Lemma Itoa_no_colon (n : Z) : LastIndexByte (Itoa n) ":" = None.
Proof.
  unfold Itoa. destruct (Z.to_int n) as [d|d]; simpl.
  - apply string_of_uint_no_colon.
  - by rewrite string_of_uint_no_colon.
Qed.

Lemma Itoa_inj (n m : Z) : Itoa n = Itoa m → n = m.
Proof.
  unfold Itoa. intros Heq.
  assert (Some (Z.to_int n) = Some (Z.to_int m)) as [= Hint].
  { by rewrite <- !NilEmpty.isi, Heq. }
  by rewrite <- (DecimalZ.of_to n), <- (DecimalZ.of_to m), Hint.
Qed.

(** The map key of the registry names the [(host, port)] pair and
    nothing else. *)
Lemma outboundKey_inj (h1 h2 : string) (p1 p2 : Z) :
  outboundKey h1 p1 = outboundKey h2 p2 ↔ (h1, p1) = (h2, p2).
Proof.
  split; [|by intros [= -> ->]].
  unfold outboundKey. intros Heq.
  apply app_sep_inj in Heq as [-> Hp]; [|apply Itoa_no_colon..].
  by rewrite (Itoa_inj _ _ Hp).
Qed.

(** ** Endpoint registry *)

Section first_seen_facts.
Context {K : Type} `{EqDecision K}.
Implicit Types l : list K.

Lemma elem_of_first_seen l x : x ∈ first_seen l ↔ x ∈ l.
Proof.
  induction l as [|a l IH]; simpl; [done|].
  rewrite !elem_of_cons, list_elem_of_filter, IH.
  destruct (decide (x = a)); intuition.
Qed.

Lemma NoDup_first_seen l : NoDup (first_seen l).
Proof.
  induction l as [|a l IH]; simpl; [constructor|].
  constructor; [|by apply NoDup_filter].
  rewrite list_elem_of_filter. intuition.
Qed.

Lemma first_seen_snoc l x :
  first_seen (l ++ [x]) =
  if decide (x ∈ l) then first_seen l
  else first_seen l ++ [x].
Proof.
  induction l as [|a l IH].
  - by rewrite decide_False by apply not_elem_of_nil.
  - change ((a :: l) ++ [x]) with (a :: (l ++ [x])).
    cbn [first_seen]. rewrite IH. destruct (decide (x ∈ l)) as [Hin|Hin].
    + by rewrite decide_True by (by right).
    + rewrite filter_app. destruct (decide (x = a)) as [->|Hne].
      * rewrite decide_True by left.
        rewrite filter_cons_False by (by intros ?).
        by rewrite filter_nil, app_nil_r.
      * rewrite decide_False by (rewrite elem_of_cons; intuition).
        by rewrite filter_cons_True, filter_nil.
Qed.

Lemma first_seen_app_prefix l1 l2 :
  first_seen l1 `prefix_of` first_seen (l1 ++ l2).
Proof.
  induction l2 as [|x l2 IH] using rev_ind.
  - by rewrite app_nil_r.
  - rewrite app_assoc, first_seen_snoc. case_decide; [done|].
    by apply prefix_app_r.
Qed.
End first_seen_facts.

Lemma key_of_identity (a b : TrojanOutbound) :
  key_of a = key_of b ↔ identity a = identity b.
Proof. apply outboundKey_inj. Qed.

Lemma registry_inv_init : registry_inv [] Registry.init.
Proof. split; simpl; try done. Qed.

Lemma last_with_snoc_same (seen : list TrojanOutbound) (ob : TrojanOutbound) :
  Registry.last_with (identity ob) (seen ++ [ob]) = Some ob.
Proof.
  unfold Registry.last_with. rewrite filter_app, filter_cons_True by done.
  by rewrite filter_nil, last_snoc.
Qed.

Lemma last_with_snoc_other (seen : list TrojanOutbound) (ob : TrojanOutbound) id :
  identity ob ≠ id →
  Registry.last_with id (seen ++ [ob]) = Registry.last_with id seen.
Proof.
  intros Hne. unfold Registry.last_with.
  rewrite filter_app, filter_cons_False by done.
  by rewrite filter_nil, app_nil_r.
Qed.

Lemma registry_inv_NoDup seen st :
  registry_inv seen st → NoDup (identity <$> st.1).
Proof. intros [-> _ _ _]. apply NoDup_first_seen. Qed.

Lemma registry_step_inv seen st ob :
  registry_inv seen st →
  ∃ st', Registry.step st ob = Some st' ∧ registry_inv (seen ++ [ob]) st'.
Proof.
  destruct st as [outs imap]. intros Hinv.
  pose proof (registry_inv_NoDup _ _ Hinv) as Hnd.
  destruct Hinv as [Hord Hidx Hslot Hlast]. simpl in *.
  unfold Registry.step. fold (key_of ob).
  destruct (imap !! key_of ob) as [idx|] eqn:Hk.
  - destruct (Hslot _ _ Hk) as (ob0 & Hob0 & Hkey0).
    apply key_of_identity in Hkey0 as Hid0.
    rewrite decide_True by (by eapply lookup_lt_Some).
    eexists; split; [done|]. split; simpl.
    + rewrite list_fmap_insert, list_insert_id
        by (by rewrite list_lookup_fmap, Hob0, <- Hid0).
      rewrite fmap_app. change (identity <$> [ob]) with [identity ob].
      rewrite first_seen_snoc, decide_True; [done|].
      apply elem_of_first_seen. rewrite <- Hord, <- Hid0.
      apply list_elem_of_fmap_2. by eapply list_elem_of_lookup_2.
    + intros i ob' Hi. destruct (decide (i = idx)) as [->|Hne].
      * rewrite list_lookup_insert_eq in Hi by (by eapply lookup_lt_Some).
        by injection Hi as <-.
      * rewrite list_lookup_insert_ne in Hi by done. by apply Hidx.
    + intros k i Hi. destruct (decide (i = idx)) as [->|Hne].
      * exists ob. rewrite list_lookup_insert_eq by (by eapply lookup_lt_Some).
        split; [done|]. destruct (Hslot _ _ Hi) as (ob1 & Hob1 & <-).
        rewrite Hob0 in Hob1. injection Hob1 as <-. done.
      * rewrite list_lookup_insert_ne by done. by apply Hslot.
    + intros i ob' Hi. destruct (decide (i = idx)) as [->|Hne].
      * rewrite list_lookup_insert_eq in Hi by (by eapply lookup_lt_Some).
        injection Hi as <-. apply last_with_snoc_same.
      * rewrite list_lookup_insert_ne in Hi by done.
        rewrite last_with_snoc_other; [by eapply Hlast|].
        intros Heq. apply Hne.
        eapply (NoDup_lookup _ _ _ (identity ob') Hnd).
        -- by rewrite list_lookup_fmap, Hi.
        -- rewrite list_lookup_fmap, Hob0. simpl. congruence.
  - assert (∀ i ob', outs !! i = Some ob' → identity ob' ≠ identity ob) as Hfresh.
    { intros i ob' Hi Heq. apply key_of_identity in Heq.
      apply Hidx in Hi. congruence. }
    eexists; split; [done|]. split; simpl.
    + rewrite !fmap_app. change (identity <$> [ob]) with [identity ob].
      rewrite first_seen_snoc, decide_False; [by rewrite Hord|].
      rewrite <- elem_of_first_seen, <- Hord.
      intros (ob' & Heq & Hin)%list_elem_of_fmap.
      apply list_elem_of_lookup in Hin as [i Hi]. by eapply Hfresh.
    + intros i ob' [[Hi Hlt]|[Hi Hob']]%lookup_snoc_Some.
      * rewrite lookup_insert_ne; [by apply Hidx|].
        intros Heq. symmetry in Heq. apply key_of_identity in Heq. by eapply Hfresh.
      * subst. apply lookup_insert_eq.
    + intros k i. rewrite lookup_insert. case_decide as Hkk.
      * intros [= <-]. exists ob. split; [|done].
        by rewrite lookup_app_r, Nat.sub_diag.
      * intros Hi. destruct (Hslot _ _ Hi) as (ob1 & Hob1 & <-).
        exists ob1. split; [|done]. by apply lookup_app_l_Some.
    + intros i ob' [[Hi Hlt]|[Hi Hob']]%lookup_snoc_Some.
      * rewrite last_with_snoc_other; [by eapply Hlast|].
        intros Heq. by eapply Hfresh.
      * subst. apply last_with_snoc_same.
Qed.

Lemma registry_loop_inv seen st recs :
  registry_inv seen st →
  ∃ st', Registry.loop st recs = Some st' ∧ registry_inv (seen ++ recs) st'.
Proof.
  revert seen st. induction recs as [|ob recs IH]; intros seen st Hinv; simpl.
  - exists st. by rewrite app_nil_r.
  - destruct (registry_step_inv _ _ ob Hinv) as (st' & -> & Hinv').
    destruct (IH _ _ Hinv') as (st'' & Hloop & Hinv'').
    exists st''. by rewrite <- app_assoc in Hinv''.
Qed.

Lemma registry_run_inv recs :
  ∃ st, Registry.loop Registry.init recs = Some st ∧ registry_inv recs st.
Proof. apply (registry_loop_inv [] _ recs registry_inv_init). Qed.

(** The registry on a stream of records: one record per [(host, port)]
    pair, the pairs in order of first occurrence, the record kept for
    a pair the last of the input with that pair; a longer input only
    extends the sequence of pairs. *)
Lemma registry_run_spec (recs : list TrojanOutbound) :
  ∃ out,
    Registry.run recs = Some out
    ∧ identity <$> out = first_seen (identity <$> recs)
    ∧ NoDup (identity <$> out)
    ∧ (∀ ob, ob ∈ recs → identity ob ∈ identity <$> out)
    ∧ (∀ ob, ob ∈ out → Registry.last_with (identity ob) recs = Some ob)
    ∧ (∀ earlier later out0,
         recs = earlier ++ later → Registry.run earlier = Some out0 →
         length out0 ≤ length out
         ∧ identity <$> out0 `prefix_of` identity <$> out)%nat.
Proof.
  destruct (registry_run_inv recs) as ([out imap] & Hrun & Hinv).
  exists out. unfold Registry.run. rewrite Hrun.
  destruct Hinv as [Hord _ _ Hlast]; simpl in *.
  split_and!; [done|done|..].
  - rewrite Hord. apply NoDup_first_seen.
  - intros ob Hin. rewrite Hord, elem_of_first_seen.
    by apply list_elem_of_fmap_2.
  - intros ob [i Hi]%list_elem_of_lookup. by eapply Hlast.
  - intros earlier later out0 -> Hrun0.
    destruct (registry_run_inv earlier) as ([out0' imap0] & Hrun0' & Hinv0).
    unfold Registry.run in Hrun0. rewrite Hrun0' in Hrun0.
    injection Hrun0 as <-. destruct Hinv0 as [Hord0 _ _ _]; simpl in *.
    assert (identity <$> out0' `prefix_of` identity <$> out) as Hpre.
    { rewrite Hord, Hord0, fmap_app. apply first_seen_app_prefix. }
    split; [|done]. apply prefix_length in Hpre.
    by rewrite !length_fmap in Hpre.
Qed.

(** C7, as the code has it.  After deduplication the [(host, port)]
    pairs of the surviving records are pairwise distinct; their labels
    need not be. *)
Theorem registry_identities_distinct (recs out : list TrojanOutbound)
    (i j : nat) (a b : TrojanOutbound) :
  Registry.run recs = Some out →
  out !! i = Some a → out !! j = Some b → i ≠ j →
  identity a ≠ identity b.
Proof.
  intros Hrun Ha Hb Hij Heq.
  destruct (registry_run_inv recs) as ([out' imap] & Hrun' & Hinv).
  unfold Registry.run in Hrun. rewrite Hrun' in Hrun. injection Hrun as ->.
  apply registry_inv_NoDup in Hinv. simpl in Hinv.
  apply Hij. eapply (NoDup_lookup _ _ _ (identity a) Hinv).
  - by rewrite list_lookup_fmap, Ha.
  - rewrite list_lookup_fmap, Hb. simpl. by rewrite Heq.
Qed.

Lemma registry_identities_distinct_witness :
  identity (endpoint "SG 01" "a.example" 443)
  ≠ identity (endpoint "SG 01" "b.example" 443).
Proof.
  apply (registry_identities_distinct
           [endpoint "SG 01" "a.example" 443; endpoint "SG 01" "b.example" 443]
           [endpoint "SG 01" "a.example" 443; endpoint "SG 01" "b.example" 443]
           0 1);
    [vm_compute; reflexivity | reflexivity | reflexivity | lia].
Defined.

(** C7, as the spec states it, fails: two endpoints with different
    hosts and the same fragment both survive, with equal labels. *)
Lemma registry_labels_not_distinct :
  ¬ (∀ (recs out : list TrojanOutbound) (i j : nat) (a b : TrojanOutbound),
       Registry.run recs = Some out →
       out !! i = Some a → out !! j = Some b → i ≠ j →
       TagOf a ≠ TagOf b).
Proof.
  intros H.
  apply (H [endpoint "SG 01" "a.example" 443; endpoint "SG 01" "b.example" 443]
           [endpoint "SG 01" "a.example" 443; endpoint "SG 01" "b.example" 443]
           0%nat 1%nat
           (endpoint "SG 01" "a.example" 443) (endpoint "SG 01" "b.example" 443));
    [vm_compute; reflexivity | reflexivity | reflexivity | lia | reflexivity].
Qed.

(** ** Region classifier *)

Lemma slice_to_from (n : nat) (s : string) : slice_to n s +:+ slice_from n s = s.
Proof.
  revert s. induction n as [|n IH]; intros [|c s]; simpl; try done.
  by rewrite app_cons, IH.
Qed.

Lemma length_slice_from (n : nat) (s : string) :
  String.length (slice_from n s) = (String.length s - n)%nat.
Proof. revert s. induction n as [|n IH]; intros [|c s]; simpl; auto. Qed.

Lemma DecodeRuneInString_size (s : string) :
  s ≠ "" →
  (1 ≤ (DecodeRuneInString s).2 ≤ String.length s)%nat.
Proof.
  destruct s as [|c0 t0]; [done|]. intros _. unfold DecodeRuneInString.
  repeat case_match; simpl; lia.
Qed.

(** The fuel of [range] is enough: the pieces are the whole string. *)
Lemma range_go_bytes (fuel : nat) (s : string) :
  (String.length s ≤ fuel)%nat →
  concat_bytes (snd <$> range_go fuel s) = s.
Proof.
  revert s. induction fuel as [|fuel IH]; intros s Hlen.
  - destruct s; [done|simpl in Hlen; lia].
  - destruct s as [|c t]; [done|]. cbn [range_go].
    pose proof (DecodeRuneInString_size (String c t)) as Hsz.
    destruct (DecodeRuneInString (String c t)) as [r size].
    specialize (Hsz ltac:(done)). cbn [snd] in Hsz.
    cbn [fmap list_fmap snd concat_bytes foldr].
    change (foldr String.app "" ?l) with (concat_bytes l).
    rewrite IH; [apply slice_to_from|].
    rewrite length_slice_from. simpl in *. lia.
Qed.

Lemma range_bytes (s : string) : concat_bytes (snd <$> range s) = s.
Proof. by apply range_go_bytes. Qed.

Lemma app_assoc_bytes (s t u : string) : (s +:+ t) +:+ u = s +:+ t +:+ u.
Proof. induction s as [|c s IH]; [done|]. by rewrite !app_cons, IH. Qed.

Lemma pieces_cons (rs : list (Z * string)) :
  ∃ p ps, Tokens.pieces rs = p :: ps.
Proof.
  destruct rs as [|[r bs] rs]; simpl; [by eauto|].
  destruct (IsSpace r); [by eauto|]. destruct (Tokens.pieces rs); eauto.
Qed.

(** [strings.Fields] splits at white space: its loop, which carries
    the field being read, gives the non-empty pieces. *)
Lemma fields_go_pieces (cur : option string) (rs : list (Z * string)) :
  ∃ p ps, Tokens.pieces rs = p :: ps ∧
    fields_go cur rs =
    option_list (match cur with
                 | Some c => Some (c +:+ Tokens.bytes_of p)
                 | None => if decide (p = []) then None
                           else Some (Tokens.bytes_of p)
                 end)
    ++ (Tokens.bytes_of <$> filter (λ p, p ≠ []) ps).
Proof.
  revert cur. induction rs as [|[r bs] rs IH]; intros cur.
  - exists [], []. split; [done|]. destruct cur; simpl; [|done].
    by rewrite app_empty_r.
  - cbn [fields_go Tokens.pieces]. destruct (IsSpace r).
    + destruct (IH None) as (p & ps & Hp & ->).
      exists [], (Tokens.pieces rs). split; [done|]. rewrite Hp.
      f_equal; [destruct cur; simpl; by rewrite ?app_empty_r|].
      destruct (decide (p = [])) as [->|Hne].
      * by rewrite filter_cons_False by (by intros ?).
      * by rewrite filter_cons_True.
    + destruct (IH (Some (from_option (λ f, f +:+ bs) bs cur)))
        as (p & ps & Hp & ->).
      rewrite Hp. exists ((r, bs) :: p), ps. split; [done|].
      f_equal. destruct cur as [c|]; simpl; [by rewrite app_assoc_bytes|done].
Qed.

Lemma Fields_split_on_white_space (s : string) :
  Fields s = Tokens.split_on_white_space s.
Proof.
  unfold Fields, Tokens.split_on_white_space.
  destruct (fields_go_pieces None (range s)) as (p & ps & -> & ->).
  destruct (decide (p = [])) as [->|Hne].
  - by rewrite filter_cons_False by (by intros ?).
  - by rewrite filter_cons_True.
Qed.

(** C2.  The region of a label is the label itself when splitting it
    on white space gives no token or one token, and otherwise all the
    tokens but the last, joined with single spaces. *)
Theorem extractRegion_tokens (tag : string) :
  extractRegion tag =
  match Tokens.split_on_white_space tag with
  | [] | [_] => tag
  | tokens => Join (removelast tokens) " "
  end.
Proof.
  rewrite <- Fields_split_on_white_space. unfold extractRegion.
  destruct (Fields tag) as [|t1 [|t2 tokens]] eqn:Hf; [done..|].
  rewrite decide_False by (simpl; lia). f_equal.
  generalize (t1 :: t2 :: tokens) as l. clear. intros l.
  induction l as [|a [|b l] IH]; try done.
  change (removelast (a :: b :: l)) with (a :: removelast (b :: l)).
  rewrite <- IH. simpl. by rewrite Nat.sub_0_r.
Qed.

Example extractRegion_examples :
  extractRegion "SG 01" = "SG"
  ∧ extractRegion "Hong Kong  IPLC 03" = "Hong Kong IPLC"
  ∧ extractRegion " US" = " US"
  ∧ extractRegion "" = "".
Proof. by vm_compute. Qed.

(** The classifier's loop, after the records [seen]: the regions in
    order of discovery, the index map defined on exactly those
    regions, and per region the labels of its records in order. *)
Lemma classify_inv (seen : list TrojanOutbound) :
  ∀ rt ri ro, Classifier.classify seen = (rt, ri, ro) →
    ro = first_seen (region_of <$> seen)
    ∧ (∀ R, ri !! R = None ↔ R ∉ ro)
    ∧ (∀ R, default [] (rt !! R) = members seen R)
    ∧ (∀ R, rt !! R = None ↔ R ∉ ro).
Proof.
  unfold Classifier.classify.
  induction seen as [|ob seen IH] using rev_ind; intros rt ri ro.
  - intros [= <- <- <-]. split_and!; try done.
    + intros R. split; [intros _; apply not_elem_of_nil|done].
    + intros R. split; [intros _; apply not_elem_of_nil|done].
  - rewrite foldl_snoc.
    destruct (foldl Classifier.step Classifier.init seen) as [[rt0 ri0] ro0].
    destruct (IH _ _ _ eq_refl) as (Hro & Hri & Hrt & Hnone).
    unfold Classifier.step. fold (region_of ob).
    set (region := region_of ob).
    assert (ri0 !! region = None ↔ region ∉ region_of <$> seen) as Hfresh.
    { by rewrite Hri, Hro, elem_of_first_seen. }
    rewrite fmap_app. change (region_of <$> [ob]) with [region].
    rewrite first_seen_snoc.
    assert (∀ R tags, default [] (<[region := default [] (rt0 !! region) ++ tags]> rt0 !! R)
                      = if decide (region = R) then members seen R ++ tags
                        else members seen R) as Htags.
    { intros R tags. rewrite lookup_insert. case_decide; simpl; [|done].
      subst R. by rewrite Hrt. }
    assert (∀ R, members (seen ++ [ob]) R
                 = if decide (region = R) then members seen R ++ [TagOf ob]
                   else members seen R) as Hmem.
    { intros R. unfold members. rewrite filter_app, fmap_app.
      case_decide.
      - by rewrite filter_cons_True, filter_nil by done.
      - rewrite filter_cons_False, filter_nil by done. simpl. by rewrite app_nil_r. }
    destruct (ri0 !! region) as [idx|] eqn:Hlook.
    + intros [= <- <- <-].
      rewrite decide_True by (apply dec_stable; intros Hn; by apply Hfresh in Hn).
      split_and!; [done|done|..].
      * intros R. by rewrite Htags, Hmem.
      * intros R. rewrite lookup_insert_None, Hnone.
        split; [tauto|]. intros HR. split; [done|]. intros <-.
        apply HR. rewrite Hro, elem_of_first_seen.
        apply dec_stable. intros Hn. by apply Hfresh in Hn.
    + intros [= <- <- <-].
      rewrite decide_False by (by apply Hfresh).
      split_and!.
      * by rewrite Hro.
      * intros R. rewrite lookup_insert_None, Hri, not_elem_of_app, not_elem_of_cons.
        rewrite Hro. pose proof (not_elem_of_nil R). intuition.
      * intros R. by rewrite Htags, Hmem.
      * intros R. rewrite lookup_insert_None, Hnone, not_elem_of_app, not_elem_of_cons.
        rewrite Hro. pose proof (not_elem_of_nil R). intuition.
Qed.

(** The collapse touches only the member lists of length one. *)
Lemma collapse_step_lookup (st : Collapse.state) (region R : string) :
  (∀ x, st.2 !! R ≠ Some [x]) →
  (Collapse.step st region).2 !! R = st.2 !! R
  ∧ ∀ x, (Collapse.step st region).2 !! R ≠ Some [x].
Proof.
  destruct st as [obs rt]. intros HR. cbn [snd] in HR.
  assert ((Collapse.step (obs, rt) region).2 !! R = rt !! R) as Heq.
  { unfold Collapse.step.
    destruct (rt !! region) as [[|x [|y tags]]|] eqn:Hreg; try done.
    simpl. rewrite lookup_insert_ne; [done|]. intros <-. by eapply HR. }
  split; [done|]. intros x. rewrite Heq. apply HR.
Qed.

Lemma collapse_run_lookup (visit : list string) (st : Collapse.state) (R : string) :
  (∀ x, st.2 !! R ≠ Some [x]) →
  (Collapse.run visit st).2 !! R = st.2 !! R.
Proof.
  unfold Collapse.run. revert st.
  induction visit as [|region visit IH]; intros st HR; [done|]. simpl.
  destruct (collapse_step_lookup st region R HR) as [Heq HR'].
  by rewrite IH, Heq.
Qed.

(** The synthesizer's loop appends, region by region, what each region
    emits. *)
Lemma synth_step_acc (rt : gmap string (list string)) (acc : list GroupOutbound)
    (R : string) :
  Synth.step rt acc R = acc ++ Synth.step rt [] R.
Proof. unfold Synth.step. by case_decide; rewrite ?app_nil_r. Qed.

Lemma synth_foldl (rt : gmap string (list string)) (acc : list GroupOutbound)
    (regions : list string) :
  foldl (Synth.step rt) acc regions = acc ++ Synth.run rt regions.
Proof.
  unfold Synth.run. revert acc.
  induction regions as [|R regions IH]; intros acc; simpl.
  - by rewrite app_nil_r.
  - by rewrite IH, (IH (Synth.step rt [] R)), app_assoc, <- synth_step_acc.
Qed.

Lemma synth_run_middle (rt : gmap string (list string))
    (before after : list string) (R : string) :
  Synth.run rt (before ++ R :: after)
  = Synth.run rt before ++ Synth.step rt [] R ++ Synth.run rt after.
Proof.
  unfold Synth.run at 1. rewrite foldl_app. simpl.
  fold (Synth.run rt before).
  by rewrite synth_foldl, synth_step_acc, <- app_assoc.
Qed.

(** C4.  A region with two or more members stands once in the region
    order, and at its place the synthesizer emits exactly two groups:
    first the [urltest] aggregator named region-auto over the region's
    member labels in order, not interrupting connections, then the
    [selector] named by the bare region over the aggregator's name
    followed by the same labels, interrupting connections.  The groups
    before and after are those of the regions discovered before and
    after. *)
Theorem groups_two_per_region (visit : list string)
    (outbounds : list TrojanOutbound) (region : string) :
  (2 ≤ length (members outbounds region))%nat →
  ∃ before after,
    regionOrder (pipeline visit outbounds) = before ++ region :: after
    ∧ regionOrder (pipeline visit outbounds) = first_seen (region_of <$> outbounds)
    ∧ (region ∉ before) ∧ (region ∉ after)
    ∧ groups (pipeline visit outbounds) =
        Synth.run (regionTags (pipeline visit outbounds)) before
        ++ [ {| Selector :=
                  {| SelBase := {| Type_ := "urltest";
                                   Tag := region +:+ "-auto" |};
                     Outbounds := members outbounds region |};
                InterruptExistConnections := false |};
             {| Selector :=
                  {| SelBase := {| Type_ := "selector"; Tag := region |};
                     Outbounds := (region +:+ "-auto")
                                  :: members outbounds region |};
                InterruptExistConnections := true |} ]
        ++ Synth.run (regionTags (pipeline visit outbounds)) after.
Proof.
  intros Hlen. unfold pipeline.
  destruct (Classifier.classify outbounds) as [[rt ri] ro] eqn:Hcl.
  destruct (classify_inv outbounds _ _ _ Hcl) as (Hro & Hri & Hrt & Hnone).
  destruct (Collapse.run visit (outbounds, rt)) as [obs' rt'] eqn:Hco.
  simpl.
  assert (rt' !! region = rt !! region) as Hsame.
  { change rt' with (obs', rt').2. rewrite <- Hco.
    apply collapse_run_lookup. simpl. intros x Hx.
    specialize (Hrt region). rewrite Hx in Hrt. simpl in Hrt.
    rewrite <- Hrt in Hlen. simpl in Hlen. lia. }
  assert (region ∈ ro) as Hin.
  { apply dec_stable. intros Hn. apply Hnone in Hn.
    specialize (Hrt region). rewrite Hn in Hrt. simpl in Hrt.
    rewrite <- Hrt in Hlen. simpl in Hlen. lia. }
  apply list_elem_of_split in Hin as (before & after & Hsplit).
  assert (NoDup ro) as Hnd by (rewrite Hro; apply NoDup_first_seen).
  rewrite Hsplit in Hnd. apply NoDup_app in Hnd as (_ & Hb & Hnd).
  apply NoDup_cons in Hnd as [Ha _].
  exists before, after. split_and!.
  - done.
  - exact Hro.
  - intros Hbin. apply (Hb _ Hbin). by left.
  - done.
  - rewrite Hsplit, synth_run_middle. do 2 f_equal.
    unfold Synth.step. rewrite Hsame, Hrt.
    by rewrite decide_False by lia.
Qed.

Lemma groups_two_per_region_witness :
  (2 ≤ length (members [endpoint "JP 01" "a.example" 443;
                         endpoint "JP 02" "b.example" 443;
                         endpoint "US 01" "c.example" 443] "JP"))%nat
  ∧ ∃ before after,
      regionOrder (pipeline ["US"; "JP"]
                     [endpoint "JP 01" "a.example" 443;
                      endpoint "JP 02" "b.example" 443;
                      endpoint "US 01" "c.example" 443])
      = before ++ "JP" :: after
      ∧ groups (pipeline ["US"; "JP"]
                  [endpoint "JP 01" "a.example" 443;
                   endpoint "JP 02" "b.example" 443;
                   endpoint "US 01" "c.example" 443])
        = Synth.run (regionTags (pipeline ["US"; "JP"]
                       [endpoint "JP 01" "a.example" 443;
                        endpoint "JP 02" "b.example" 443;
                        endpoint "US 01" "c.example" 443])) before
          ++ [Synth.urltest "JP" ["JP 01"; "JP 02"];
              Synth.selector "JP" ["JP 01"; "JP 02"]]
          ++ Synth.run (regionTags (pipeline ["US"; "JP"]
                          [endpoint "JP 01" "a.example" 443;
                           endpoint "JP 02" "b.example" 443;
                           endpoint "US 01" "c.example" 443])) after.
Proof.
  split; [vm_compute; lia|].
  destruct (groups_two_per_region ["US"; "JP"]
              [endpoint "JP 01" "a.example" 443;
               endpoint "JP 02" "b.example" 443;
               endpoint "US 01" "c.example" 443] "JP")
    as (before & after & H1 & _ & _ & _ & H2); [vm_compute; lia|].
  exists before, after. split; [exact H1|exact H2].
Defined.

(** The spec's second end-to-end example: [JP 01], [JP 02], [US 01]. *)
Example pipeline_jp_us :
  let g := pipeline ["US"; "JP"]
             [endpoint "JP 01" "a.example" 443;
              endpoint "JP 02" "b.example" 443;
              endpoint "US 01" "c.example" 443] in
  TagOf <$> servers g = ["JP 01"; "JP 02"; "US"]
  ∧ groups g = [Synth.urltest "JP" ["JP 01"; "JP 02"];
                Synth.selector "JP" ["JP 01"; "JP 02"]]
  ∧ Outbounds (Selector (Synth.selector "JP" ["JP 01"; "JP 02"]))
    = ["JP-auto"; "JP 01"; "JP 02"].
Proof. by vm_compute. Qed.

(** A region with at most one member emits nothing. *)
Lemma synth_step_singleton (rt : gmap string (list string))
    (acc : list GroupOutbound) (R : string) :
  (length (default [] (rt !! R)) ≤ 1)%nat → Synth.step rt acc R = acc.
Proof. intros Hlen. unfold Synth.step. by rewrite decide_True. Qed.

Lemma collapse_step_length (st : Collapse.state) (region R : string) :
  length (default [] ((Collapse.step st region).2 !! R))
  = length (default [] (st.2 !! R)).
Proof.
  destruct st as [obs rt]. unfold Collapse.step.
  destruct (rt !! region) as [[|x [|y tags]]|] eqn:Hreg; try done.
  cbn [snd]. destruct (decide (region = R)) as [<-|Hne].
  - by rewrite lookup_insert_eq, Hreg.
  - by rewrite lookup_insert_ne.
Qed.

Lemma collapse_run_length (visit : list string) (st : Collapse.state)
    (R : string) :
  length (default [] ((Collapse.run visit st).2 !! R))
  = length (default [] (st.2 !! R)).
Proof.
  unfold Collapse.run. revert st.
  induction visit as [|region visit IH]; intros st; [done|]. simpl.
  by rewrite IH, collapse_step_length.
Qed.

(** The half of C3 that holds for every input and every visiting
    order: a region with at most one member emits no group. *)
Lemma pipeline_singleton_no_group (visit : list string)
    (outbounds : list TrojanOutbound) (region : string)
    (acc : list GroupOutbound) :
  (length (members outbounds region) ≤ 1)%nat →
  Synth.step (regionTags (pipeline visit outbounds)) acc region = acc.
Proof.
  intros Hlen. apply synth_step_singleton. unfold pipeline.
  destruct (Classifier.classify outbounds) as [[rt ri] ro] eqn:Hcl.
  destruct (classify_inv outbounds _ _ _ Hcl) as (_ & _ & Hrt & _).
  pose proof (collapse_run_length visit (outbounds, rt) region) as Hcol.
  destruct (Collapse.run visit (outbounds, rt)) as [obs' rt'].
  cbn [snd regionTags] in *. by rewrite Hcol, Hrt.
Qed.

(** C3 on the code.  The lines [trojan://p@a.example:443#A%20B%20C]
    and [trojan://p@b.example:443#A%20B] give two endpoints labelled
    [A B C] and [A B], and two regions of one member each: [A B]
    (member [A B C]) and [A] (member [A B]).  Both orders of the two
    regions are orders in which the range over the map may visit them.
    When it visits [A B] before [A], the first endpoint is renamed
    twice and the second never: the only member of region [A B] ends
    with the label [A], the only member of region [A] keeps the label
    [A B].  No group is emitted.  Visiting [A] first gives the labels
    the spec promises.  So the statement that the only member of a
    region ends with the region's key as its label does not hold of
    the code. *)
Theorem collapse_renames_first_match :
  let ob1 := endpoint "A B C" "a.example" 443 in
  let ob2 := endpoint "A B" "b.example" 443 in
  let rt := (Classifier.classify [ob1; ob2]).1.1 in
  parsed_records sample_url_Parse sample_So
    ["trojan://p@a.example:443#A%20B%20C"; "trojan://p@b.example:443#A%20B"]
  = [ob1; ob2]
  ∧ Registry.run [ob1; ob2] = Some [ob1; ob2]
  ∧ members [ob1; ob2] "A B" = ["A B C"]
  ∧ members [ob1; ob2] "A" = ["A B"]
  ∧ Collapse.visit_order ["A B"; "A"] rt
  ∧ Collapse.visit_order ["A"; "A B"] rt
  ∧ servers (pipeline ["A B"; "A"] [ob1; ob2]) = [set_Tag ob1 "A"; ob2]
  ∧ groups (pipeline ["A B"; "A"] [ob1; ob2]) = []
  ∧ servers (pipeline ["A"; "A B"] [ob1; ob2])
    = [set_Tag ob1 "A B"; set_Tag ob2 "A"]
  ∧ ¬ (∀ (visit : list string) (obs : list TrojanOutbound) (region : string)
         (i : nat) (ob : TrojanOutbound),
         Collapse.visit_order visit (Classifier.classify obs).1.1 →
         obs !! i = Some ob →
         members obs region = [TagOf ob] →
         TagOf <$> servers (pipeline visit obs) !! i = Some region).
Proof.
  assert (Collapse.visit_order ["A B"; "A"]
            (Classifier.classify [endpoint "A B C" "a.example" 443;
                                  endpoint "A B" "b.example" 443]).1.1)
    as Hvisit.
  { unfold Collapse.visit_order. vm_compute.
    first [reflexivity | apply perm_swap]. }
  split_and!;
    [vm_compute; reflexivity | vm_compute; reflexivity
    |vm_compute; reflexivity | vm_compute; reflexivity
    |exact Hvisit | |vm_compute; reflexivity | vm_compute; reflexivity
    |vm_compute; reflexivity | ].
  - unfold Collapse.visit_order. vm_compute.
    first [reflexivity | apply perm_swap].
  - intros H.
    specialize (H ["A B"; "A"]
                  [endpoint "A B C" "a.example" 443;
                   endpoint "A B" "b.example" 443]
                  "A B" 0%nat (endpoint "A B C" "a.example" 443)
                  Hvisit eq_refl).
    vm_compute in H. specialize (H eq_refl). discriminate H.
Qed.

(** ** URI parser *)

Lemma slice_from_S (n : nat) (s : string) :
  slice_from (S n) s =
  match slice_from n s with
  | String _ t => t
  | "" => ""
  end.
Proof.
  revert s. induction n as [|n IH]; intros [|c s]; try done.
  change (slice_from (S (S n)) (String c s)) with (slice_from (S n) s).
  by rewrite IH.
Qed.

(** A port that [u.Port()] returns is made of digits. *)
Lemma Port_all_digits (u : URL) : all_digits (Url.Port u) = true.
Proof.
  unfold Url.Port, Url.splitHostPort.
  destruct (LastIndexByte (Host u) ":") as [colon|]; [|done].
  destruct (Url.validOptionalPort (slice_from colon (Host u))) eqn:Hvalid;
    [|done].
  cbn [snd]. rewrite slice_from_S.
  destruct (slice_from colon (Host u)) as [|c digits]; [done|].
  simpl in Hvalid. by apply andb_prop in Hvalid as [_ ?].
Qed.

Lemma is_digit_range (c : ascii) :
  is_digit c = true → 0 ≤ byte_val c - 48 ≤ 9.
Proof. unfold is_digit, between. lia. Qed.

Lemma is_digit_not_sign (c : ascii) :
  is_digit c = true → c ≠ "-"%char ∧ c ≠ "+"%char.
Proof. intros H. split; intros ->; by vm_compute in H. Qed.

Lemma digits_value_all_digits (s : string) (acc : Z) :
  all_digits s = true → 0 ≤ acc →
  ∃ n, digits_value acc s = Some n ∧ 0 ≤ n.
Proof.
  revert acc. induction s as [|c s IH]; intros acc Hall Hacc; simpl in *.
  - eauto.
  - apply andb_prop in Hall as [Hc Hs]. rewrite Hc.
    apply IH; [done|]. apply is_digit_range in Hc. lia.
Qed.

(** [Atoi] on digits: the value, or a range error beyond [int]. *)
Lemma Atoi_all_digits (s : string) :
  s ≠ "" → all_digits s = true →
  ∃ n, digits_value 0 s = Some n ∧ 0 ≤ n ∧
    Atoi s = if 2 ^ 63 - 1 <? n
             then (2 ^ 63 - 1, Some (ErrRange "Atoi" s))
             else (n, None).
Proof.
  intros Hne Hall.
  destruct (digits_value_all_digits s 0 Hall) as (n & Hn & Hpos); [done|].
  exists n. split_and!; [done..|].
  destruct s as [|c t]; [done|]. unfold Atoi.
  simpl in Hall. apply andb_prop in Hall as [Hc _].
  destruct (is_digit_not_sign c Hc) as [Hm Hp].
  rewrite !decide_False by done. rewrite Hn.
  assert ((n <? - 2 ^ 63) = false) as -> by lia. done.
Qed.

Section ParserFacts.
Variable url_Parse : string → error + URL.
Variable unicode_So : Z → bool.

(** C5, as the code has it.  For a trojan URI whose port component is
    present, the port is a run of digits; the parser fails exactly
    when their value is beyond the range of [int], and otherwise
    returns a record with that port, zero included. *)
Theorem parse_port_present (raw : string) (u : URL) :
  url_Parse (TrimSpace raw) = inr u →
  Scheme u = "trojan" →
  Url.Port u ≠ "" →
  ∃ n, digits_value 0 (Url.Port u) = Some n ∧ 0 ≤ n ∧
    if 2 ^ 63 - 1 <? n
    then parseTrojanURL url_Parse unicode_So raw
         = (None, Some (ErrRange "Atoi" (Url.Port u)))
    else ∃ ob, parseTrojanURL url_Parse unicode_So raw = (Some ob, None)
               ∧ ServerPort ob = n
               ∧ Server ob = Url.Hostname u.
Proof.
  intros Hparse Hscheme Hport.
  destruct (Atoi_all_digits (Url.Port u) Hport (Port_all_digits u))
    as (n & Hn & Hpos & Hatoi).
  exists n. split_and!; [done..|].
  unfold parseTrojanURL. rewrite Hparse.
  rewrite decide_False by (by intros ?).
  rewrite decide_False by done. rewrite Hatoi.
  destruct (2 ^ 63 - 1 <? n); [done|]. eauto.
Qed.

(** The loop over the lines hands the registry the parsed records,
    in order. *)
Lemma read_lines_registry (st : Registry.state) (lines : list string) :
  read_lines url_Parse unicode_So st lines
  = Registry.loop st (parsed_records url_Parse unicode_So lines).
Proof.
  revert st. induction lines as [|line lines IH]; intros st; [done|].
  unfold parsed_records. cbn [read_lines omap list_omap].
  fold (parsed_records url_Parse unicode_So lines).
  destruct (decide (TrimSpace line = "")); [apply IH|].
  destruct (parseTrojanURL url_Parse unicode_So (TrimSpace line))
    as [[ob|] [e|]]; try apply IH.
  simpl. destruct (Registry.step st ob); [apply IH|done].
Qed.
(** C1.  For every stream of lines, the registry ends with exactly one
    record per [(host, port)] pair of the parsed records; the pairs
    stand in the order of their first occurrence, the record kept for
    a pair is the last parsed record with that pair, and nothing is
    removed: what the registry held after a shorter stream keeps its
    position in a longer one. *)
Theorem registry_last_wins_first_position (lines : list string) :
  ∃ out indexMap,
    read_lines url_Parse unicode_So Registry.init lines = Some (out, indexMap)
    ∧ identity <$> out
      = first_seen (identity <$> parsed_records url_Parse unicode_So lines)
    ∧ NoDup (identity <$> out)
    ∧ (∀ ob, ob ∈ parsed_records url_Parse unicode_So lines →
             identity ob ∈ identity <$> out)
    ∧ (∀ ob, ob ∈ out →
             Registry.last_with (identity ob)
               (parsed_records url_Parse unicode_So lines) = Some ob)
    ∧ (∀ earlier later out0 indexMap0,
         lines = earlier ++ later →
         read_lines url_Parse unicode_So Registry.init earlier
         = Some (out0, indexMap0) →
         (length out0 ≤ length out)%nat
         ∧ identity <$> out0 `prefix_of` identity <$> out).
Proof.
  destruct (registry_run_spec (parsed_records url_Parse unicode_So lines))
    as (out & Hrun & Hord & Hnd & Hall & Hlast & Hgrow).
  unfold Registry.run in Hrun. rewrite <- read_lines_registry in Hrun.
  destruct (read_lines url_Parse unicode_So Registry.init lines)
    as [[out' indexMap]|] eqn:Hread; [|done].
  injection Hrun as ->. exists out, indexMap.
  split_and!; [done..|].
  intros earlier later out0 indexMap0 -> Hread0.
  apply (Hgrow (parsed_records url_Parse unicode_So earlier)
               (parsed_records url_Parse unicode_So later)).
  - apply omap_app.
  - unfold Registry.run. by rewrite <- read_lines_registry, Hread0.
Qed.

End ParserFacts.

Lemma parse_port_present_witness :
  ∃ n, digits_value 0 "443" = Some n ∧ 0 ≤ n ∧
    ∃ ob, parseTrojanURL sample_url_Parse sample_So
            "trojan://p@1.2.3.4:443?sni=a#SG%2001" = (Some ob, None)
          ∧ ServerPort ob = n
          ∧ Server ob = "1.2.3.4".
Proof.
  destruct (parse_port_present sample_url_Parse sample_So
              "trojan://p@1.2.3.4:443?sni=a#SG%2001"
              {| Scheme := "trojan"; Username := "p"; Host := "1.2.3.4:443";
                 Query := [("sni", "a")]; Fragment := "SG 01" |})
    as (n & Hn & Hpos & H); [by vm_compute..|].
  exists n. split_and!; [exact Hn|exact Hpos|].
  vm_compute in Hn. injection Hn as <-. exact H.
Defined.

(** C5, as the spec states it, fails twice.  A port of zero is
    accepted: the line [trojan://p@example.com:0#x] gives a record with
    port 0.  A URI without a port, [trojan://p@example.com#x], gives
    Go's [nil, nil], the result of an ignored line, and no error. *)
Lemma parse_port_zero_accepted :
  parseTrojanURL sample_url_Parse sample_So "trojan://p@example.com:0#x"
  = (Some {| Base := {| Type_ := "trojan"; Tag := "x" |};
             Server := "example.com"; ServerPort := 0; Password := "p";
             TLS := {| Enabled := true; ServerName := "";
                       Insecure := false |} |}, None)
  ∧ parseTrojanURL sample_url_Parse sample_So "trojan://p@example.com#x"
    = (None, None)
  ∧ ¬ (∀ (url_Parse : string → error + URL) (unicode_So : Z → bool)
         (raw : string) (u : URL),
         url_Parse (TrimSpace raw) = inr u → Scheme u = "trojan" →
         (Url.Port u = ""
          ∨ ¬ ∃ n, 0 < n ∧ Atoi (Url.Port u) = (n, None)) →
         ∃ e, parseTrojanURL url_Parse unicode_So raw = (None, Some e)).
Proof.
  split_and!; [by vm_compute..|].
  intros H.
  destruct (H sample_url_Parse sample_So "trojan://p@example.com:0#x"
              {| Scheme := "trojan"; Username := "p"; Host := "example.com:0";
                 Query := []; Fragment := "x" |}) as [e He];
    [by vm_compute..| |by vm_compute in He].
  right. intros (n & Hn & Hatoi). vm_compute in Hatoi.
  injection Hatoi as <-. lia.
Qed.

Example parse_examples :
  (parseTrojanURL sample_url_Parse sample_So
     "trojan://p@example.com:99999999999999999999#x").2
  = Some (ErrRange "Atoi" "99999999999999999999")
  ∧ parseTrojanURL sample_url_Parse sample_So "vmess://abc" = (None, None)
  ∧ parseTrojanURL sample_url_Parse sample_So "not a uri"
    = (None, Some (ErrURL "parse error")).
Proof. by vm_compute. Qed.

(** ** Template merger *)

Lemma seen_of_dst (acc : gset string) (dst : list string) (v : string) :
  v ∈ foldl AppendUnique.mark acc dst ↔ v ∈ acc ∨ v ∈ dst.
Proof.
  revert acc. induction dst as [|x dst IH]; intros acc; simpl.
  - rewrite elem_of_nil. tauto.
  - rewrite IH. unfold AppendUnique.mark.
    rewrite elem_of_union, elem_of_singleton, elem_of_cons. tauto.
Qed.

(** The loop of [appendUnique], with [seen] holding the values of
    [dst]: the values of [src] missing from [dst] are appended, each
    once, in order of first occurrence. *)
Lemma append_loop_spec (src : list string) :
  ∀ (seen : gset string) (dst : list string),
    (∀ v, v ∈ seen ↔ v ∈ dst) →
    ∃ seen',
      foldl AppendUnique.step (seen, dst) src
      = (seen', dst ++ first_seen (filter (λ v, v ∉ dst) src))
      ∧ ∀ v, v ∈ seen' ↔ v ∈ dst ++ first_seen (filter (λ v, v ∉ dst) src).
Proof.
  induction src as [|x src IH] using rev_ind; intros seen dst Hseen.
  - exists seen. simpl. rewrite app_nil_r. done.
  - destruct (IH seen dst Hseen) as (seen' & Hloop & Hseen').
    rewrite foldl_snoc, Hloop. unfold AppendUnique.step.
    rewrite filter_app.
    destruct (decide (x ∈ dst)) as [Hx|Hx].
    + rewrite filter_cons_False, filter_nil, app_nil_r by tauto.
      rewrite decide_True; [by eauto|].
      apply Hseen', elem_of_app. by left.
    + rewrite filter_cons_True, filter_nil by done.
      rewrite first_seen_snoc.
      destruct (decide (x ∈ filter (λ v, v ∉ dst) src)) as [Hin|Hin].
      * rewrite decide_True; [by eauto|].
        apply Hseen', elem_of_app. right. by apply elem_of_first_seen.
      * rewrite decide_False.
        -- eexists. split; [by rewrite app_assoc|].
           intros v. unfold AppendUnique.mark.
           rewrite elem_of_union, elem_of_singleton, Hseen'.
           rewrite !elem_of_app, list_elem_of_singleton. tauto.
        -- rewrite Hseen', elem_of_app, elem_of_first_seen. tauto.
Qed.

Lemma appendUnique_spec (dst src : list string) :
  appendUnique dst src = dst ++ first_seen (filter (λ v, v ∉ dst) src).
Proof.
  unfold appendUnique.
  destruct (append_loop_spec src (foldl AppendUnique.mark ∅ dst) dst)
    as (seen' & -> & _); [|done].
  intros v. rewrite seen_of_dst, elem_of_empty. tauto.
Qed.

Lemma appendUnique_contains (dst src : list string) (v : string) :
  v ∈ src → v ∈ appendUnique dst src.
Proof.
  intros Hv. rewrite appendUnique_spec, elem_of_app, elem_of_first_seen.
  rewrite list_elem_of_filter. destruct (decide (v ∈ dst)); tauto.
Qed.

Lemma appendUnique_nothing_new (dst src : list string) :
  (∀ v, v ∈ src → v ∈ dst) → appendUnique dst src = dst.
Proof.
  intros Hall. rewrite appendUnique_spec.
  assert (filter (λ v, v ∉ dst) src = []) as ->.
  { induction src as [|x src IH]; [done|].
    rewrite filter_cons_False by (intros Hx; apply Hx, Hall; by left).
    apply IH. intros v Hv. apply Hall. by right. }
  simpl. by rewrite app_nil_r.
Qed.

(** The loop that writes [selectors[i]] in place rewrites every entry
    on its own. *)
Lemma merge_loop_fmap (regionOrder : list string) (pre rest : list entry) :
  merge_loop regionOrder (length pre) rest (pre ++ rest)
  = pre ++ (merge_entry regionOrder <$> rest).
Proof.
  revert pre. induction rest as [|ob rest IH]; intros pre; [done|].
  destruct ob as [raw|sel]; cbn [merge_loop fmap list_fmap merge_entry].
  - specialize (IH (pre ++ [Raw raw])).
    rewrite length_app, <- !app_assoc in IH. simpl in IH.
    by rewrite Nat.add_1_r in IH.
  - rewrite insert_app_r_alt, Nat.sub_diag by done. cbn [insert list_insert].
    match goal with
    | |- merge_loop _ _ _ (pre ++ ?e :: rest) = _ =>
      specialize (IH (pre ++ [e]))
    end.
    rewrite length_app, <- !app_assoc in IH. simpl in IH.
    by rewrite Nat.add_1_r in IH.
Qed.

Lemma merge_fmap (regionOrder : list string) (selectors : list entry) :
  merge regionOrder selectors = merge_entry regionOrder <$> selectors.
Proof. apply (merge_loop_fmap regionOrder [] selectors). Qed.

(** C6.  Appending the region keys to a member list that came out of
    such an append changes nothing, and so merging the same region
    keys into merged template entries changes nothing: no key is added
    twice. *)
Theorem merge_idempotent (regionOrder : list string) :
  (∀ dst : list string,
     appendUnique (appendUnique dst regionOrder) regionOrder
     = appendUnique dst regionOrder)
  ∧ (∀ selectors : list entry,
       merge regionOrder (merge regionOrder selectors)
       = merge regionOrder selectors).
Proof.
  assert (∀ dst : list string,
            appendUnique (appendUnique dst regionOrder) regionOrder
            = appendUnique dst regionOrder) as Hidem.
  { intros dst. apply appendUnique_nothing_new.
    intros v. apply appendUnique_contains. }
  split; [done|]. intros selectors. rewrite !merge_fmap, <- list_fmap_compose.
  apply list_fmap_ext. intros _ [raw|sel] _; simpl; [done|].
  by rewrite Hidem.
Qed.

Example appendUnique_examples :
  appendUnique ["direct"; "direct"] ["JP"; "direct"; "US"; "JP"]
  = ["direct"; "direct"; "JP"; "US"]
  ∧ appendUnique [] [] = [].
Proof. by vm_compute. Qed.

Section TemplateFacts.

Variable os_ReadFile : string → error + string.
Variable Unmarshal_SelectorsConfig : string → error + list RawMessage.
Variable json_Decode : RawMessage → error + json.

Local Abbreviation loader :=
  (loadSelectors os_ReadFile Unmarshal_SelectorsConfig json_Decode).
Local Abbreviation merger :=
  (merge_template os_ReadFile Unmarshal_SelectorsConfig json_Decode).
Local Abbreviation decodes :=
  (template_decodes Unmarshal_SelectorsConfig json_Decode).

Lemma entry_decodes_load (raw : RawMessage) :
  entry_decodes json_Decode raw = true ↔ is_Some (load_entry json_Decode raw).
Proof.
  unfold entry_decodes, load_entry.
  destruct (Unmarshal_base json_Decode raw) as [ty [e|]].
  - split; [done|]. by intros [? ?].
  - destruct (decide (ty ≠ "selector")); [by eauto|].
    destruct (Unmarshal_selector json_Decode raw) as [sel [e|]]; simpl.
    + split; [done|]. by intros [? ?].
    + by eauto.
Qed.

Lemma load_entries_cons (raw : RawMessage) (raws : list RawMessage)
    (result : list entry) :
  match load_entry json_Decode raw with
  | Some e => load_entries json_Decode result (raw :: raws)
              = load_entries json_Decode (result ++ [e]) raws
  | None => ∃ err, load_entries json_Decode result (raw :: raws)
                   = ([], Some err)
  end.
Proof.
  unfold load_entry. cbn [load_entries].
  destruct (Unmarshal_base json_Decode raw) as [ty [e|]]; [by eauto|].
  destruct (decide (ty ≠ "selector")); [done|].
  destruct (Unmarshal_selector json_Decode raw) as [sel [e|]]; by eauto.
Qed.

(** The loop of [loadSelectors] stores one entry per raw value, in
    order, and stops with the error of the first value that does not
    decode. *)
Lemma load_entries_spec (raws : list RawMessage) (result : list entry) :
  match mapM (load_entry json_Decode) raws with
  | Some es => load_entries json_Decode result raws = (result ++ es, None)
  | None => ∃ err, load_entries json_Decode result raws = ([], Some err)
  end.
Proof.
  revert result. induction raws as [|raw raws IH]; intros result.
  - simpl. by rewrite app_nil_r.
  - cbn [mapM]. pose proof (load_entries_cons raw raws result) as Hcons.
    destruct (load_entry json_Decode raw) as [e|]; [|done].
    rewrite Hcons. specialize (IH (result ++ [e])).
    destruct (mapM (load_entry json_Decode) raws) as [es|]; [|done].
    by rewrite <- app_assoc in IH.
Qed.

Lemma merge_template_loaded (path data : string) (raws : list RawMessage)
    (regionOrder : list string) (merged : list entry) :
  os_ReadFile path = inr data →
  Unmarshal_SelectorsConfig data = inr raws →
  merger path regionOrder = Continue merged →
  ∃ es, mapM (load_entry json_Decode) raws = Some es
        ∧ merged = merge_entry regionOrder <$> es.
Proof.
  intros Hread Hcfg. unfold merge_template, loadSelectors.
  rewrite Hread, Hcfg. pose proof (load_entries_spec raws []) as Hload.
  destruct (mapM (load_entry json_Decode) raws) as [es|].
  - rewrite Hload. intros [= <-]. exists es. by rewrite merge_fmap.
  - destruct Hload as [err ->]. done.
Qed.

(** C8.  A template entry whose [type] is not [selector] stands in
    the merged list at its place, as the bytes it has in the
    template. *)
Theorem raw_entries_pass_through (path data : string)
    (raws : list RawMessage) (regionOrder : list string)
    (merged : list entry) (i : nat) (raw : RawMessage) (base_Type : string) :
  os_ReadFile path = inr data →
  Unmarshal_SelectorsConfig data = inr raws →
  merger path regionOrder = Continue merged →
  raws !! i = Some raw →
  Unmarshal_base json_Decode raw = (base_Type, None) →
  base_Type ≠ "selector" →
  merged !! i = Some (Raw raw) ∧ length merged = length raws.
Proof.
  intros Hread Hcfg Hmerge Hi Hbase Hty.
  destruct (merge_template_loaded _ _ _ _ _ Hread Hcfg Hmerge)
    as (es & Hes & ->).
  apply mapM_Some in Hes. split.
  - destruct (Forall2_lookup_l _ _ _ _ _ Hes Hi) as (e & He & Hload).
    rewrite list_lookup_fmap, He. simpl.
    unfold load_entry in Hload. rewrite Hbase in Hload.
    rewrite decide_True in Hload by done. by injection Hload as <-.
  - rewrite length_fmap. symmetry. by eapply Forall2_length.
Qed.

(** C9, as the code has it.  A template entry of type [selector]
    stands in the merged list as the struct it was decoded into: its
    type and tag as decoded, its member list extended with the region
    keys it lacks.  The struct has no other field, so whatever else
    the entry carries in the file is not written. *)
Theorem selector_entries_rebuilt (path data : string)
    (raws : list RawMessage) (regionOrder : list string)
    (merged : list entry) (i : nat) (raw : RawMessage) :
  os_ReadFile path = inr data →
  Unmarshal_SelectorsConfig data = inr raws →
  merger path regionOrder = Continue merged →
  raws !! i = Some raw →
  Unmarshal_base json_Decode raw = ("selector", None) →
  ∃ sel,
    Unmarshal_selector json_Decode raw = (sel, None)
    ∧ merged !! i
      = Some (Sel {| SelBase := SelBase sel;
                     Outbounds := appendUnique (Outbounds sel) regionOrder |})
    ∧ ∀ e key, merged !! i = Some e → key ≠ "outbounds" →
        written_member json_Decode e key =
        if decide (key = "type") then Some (JString (Type_ (SelBase sel)))
        else if decide (key = "tag") then Some (JString (Tag (SelBase sel)))
        else None.
Proof.
  intros Hread Hcfg Hmerge Hi Hbase.
  destruct (merge_template_loaded _ _ _ _ _ Hread Hcfg Hmerge)
    as (es & Hes & ->).
  apply mapM_Some in Hes.
  destruct (Forall2_lookup_l _ _ _ _ _ Hes Hi) as (e & He & Hload).
  unfold load_entry in Hload. rewrite Hbase in Hload.
  rewrite decide_False in Hload by (by intros ?).
  destruct (Unmarshal_selector json_Decode raw) as [sel [err|]]; [done|].
  injection Hload as <-. exists sel.
  assert ((merge_entry regionOrder <$> es) !! i
          = Some (Sel {| SelBase := SelBase sel;
                         Outbounds := appendUnique (Outbounds sel) regionOrder |}))
    as Hm by (by rewrite list_lookup_fmap, He).
  split_and!; [done..|]. intros e key. rewrite Hm. by intros [= <-].
Qed.

(** C10.  A template file that does not exist is an empty template
    and the run goes on; a template file whose content does not
    decode is an error of the loader and the end of the run. *)
Theorem template_missing_or_malformed (path : string)
    (regionOrder : list string) :
  (∀ err, os_ReadFile path = inl err → os_IsNotExist err = true →
     loader path = ([], None)
     ∧ merger path regionOrder = Continue [])
  ∧ (∀ data, os_ReadFile path = inr data → decodes data = false →
       ∃ err, loader path = ([], Some err)
              ∧ merger path regionOrder = Fatal err).
Proof.
  split.
  - intros err Hread Hne.
    unfold merge_template, loadSelectors.
    by rewrite Hread, Hne.
  - intros data Hread Hdec.
    unfold merge_template, loadSelectors.
    rewrite Hread. unfold template_decodes in Hdec.
    destruct (Unmarshal_SelectorsConfig data) as [err|raws]; [by eauto|].
    pose proof (load_entries_spec raws []) as Hload.
    destruct (mapM (load_entry json_Decode) raws) as [es|] eqn:Hes.
    + exfalso. apply mapM_Some in Hes.
      assert (forallb (entry_decodes json_Decode) raws = true) as Hall; [|congruence].
      apply forallb_forall. intros raw Hin%list_elem_of_In.
      apply entry_decodes_load.
      apply list_elem_of_lookup in Hin as [i Hi].
      destruct (Forall2_lookup_l _ _ _ _ _ Hes Hi) as (e & _ & ->). done.
    + destruct Hload as [err ->]. eauto.
Qed.
End TemplateFacts.

Lemma raw_entries_pass_through_witness :
  [Raw Sample.raw_direct;
   Sel {| SelBase := {| Type_ := "selector"; Tag := "proxy" |};
          Outbounds := ["direct"; "JP"; "US"] |}] !! 0%nat
  = Some (Raw Sample.raw_direct)
  ∧ length [Raw Sample.raw_direct;
            Sel {| SelBase := {| Type_ := "selector"; Tag := "proxy" |};
                   Outbounds := ["direct"; "JP"; "US"] |}]
    = length [Sample.raw_direct; Sample.raw_proxy].
Proof.
  apply (raw_entries_pass_through
           Sample.ReadFile Sample.Unmarshal_SelectorsConfig Sample.json_Decode
           "config/selectors.scheme.json" Sample.template
           [Sample.raw_direct; Sample.raw_proxy] ["JP"; "direct"; "US"]
           _ 0 Sample.raw_direct "direct");
    [vm_compute; reflexivity..|].
  intros H; vm_compute in H; discriminate H.
Defined.

Lemma selector_entries_rebuilt_witness :
  ∃ sel,
    Unmarshal_selector Sample.json_Decode Sample.raw_proxy = (sel, None)
    ∧ [Raw Sample.raw_direct;
       Sel {| SelBase := {| Type_ := "selector"; Tag := "proxy" |};
              Outbounds := ["direct"; "JP"; "US"] |}] !! 1%nat
      = Some (Sel {| SelBase := SelBase sel;
                     Outbounds := appendUnique (Outbounds sel)
                                    ["JP"; "direct"; "US"] |}).
Proof.
  destruct (selector_entries_rebuilt
              Sample.ReadFile Sample.Unmarshal_SelectorsConfig
              Sample.json_Decode
              "config/selectors.scheme.json" Sample.template
              [Sample.raw_direct; Sample.raw_proxy] ["JP"; "direct"; "US"]
              [Raw Sample.raw_direct;
               Sel {| SelBase := {| Type_ := "selector"; Tag := "proxy" |};
                      Outbounds := ["direct"; "JP"; "US"] |}]
              1 Sample.raw_proxy)
    as (sel & Hsel & Hm & _); [vm_compute; reflexivity..|].
  exists sel. split; [exact Hsel|exact Hm].
Defined.

(** C9, as the spec states it, fails.  The template entry
    [Sample.raw_proxy] carries a member [default]; the merged entry is
    a [SelectorOutbound], which is written with [type], [tag] and
    [outbounds] and nothing else. *)
Lemma selector_entry_loses_fields :
  Json.member
    (JObject [("type", JString "selector"); ("tag", JString "proxy");
              ("outbounds", JArray [JString "direct"]);
              ("default", JString "direct")]) "default"
  = Some (JString "direct")
  ∧ merge_template Sample.ReadFile Sample.Unmarshal_SelectorsConfig
      Sample.json_Decode "config/selectors.scheme.json" ["JP"; "direct"; "US"]
    = Continue
        [Raw Sample.raw_direct;
         Sel {| SelBase := {| Type_ := "selector"; Tag := "proxy" |};
                Outbounds := ["direct"; "JP"; "US"] |}]
  ∧ written_member Sample.json_Decode
      (Sel {| SelBase := {| Type_ := "selector"; Tag := "proxy" |};
              Outbounds := ["direct"; "JP"; "US"] |}) "default"
    = None
  ∧ ¬ (∀ (os_ReadFile : string → error + string)
         (Unmarshal_SelectorsConfig : string → error + list RawMessage)
         (json_Decode : RawMessage → error + json)
         (path data : string) (raws : list RawMessage)
         (regionOrder : list string) (merged : list entry) (i : nat)
         (raw : RawMessage) (j : json) (e : entry) (key : string),
         os_ReadFile path = inr data →
         Unmarshal_SelectorsConfig data = inr raws →
         merge_template os_ReadFile Unmarshal_SelectorsConfig json_Decode
           path regionOrder = Continue merged →
         raws !! i = Some raw →
         Unmarshal_base json_Decode raw = ("selector", None) →
         json_Decode raw = inr j →
         merged !! i = Some e →
         key ≠ "outbounds" →
         written_member json_Decode e key = Json.member j key).
Proof.
  split_and!; [by vm_compute..|].
  intros H.
  specialize (H Sample.ReadFile Sample.Unmarshal_SelectorsConfig
                Sample.json_Decode
                "config/selectors.scheme.json" Sample.template
                [Sample.raw_direct; Sample.raw_proxy] ["JP"; "direct"; "US"]
                [Raw Sample.raw_direct;
                 Sel {| SelBase := {| Type_ := "selector"; Tag := "proxy" |};
                        Outbounds := ["direct"; "JP"; "US"] |}]
                1%nat Sample.raw_proxy
                (JObject [("type", JString "selector"); ("tag", JString "proxy");
                          ("outbounds", JArray [JString "direct"]);
                          ("default", JString "direct")])
                (Sel {| SelBase := {| Type_ := "selector"; Tag := "proxy" |};
                        Outbounds := ["direct"; "JP"; "US"] |})
                "default").
  vm_compute in H. 
  assert (@None json = Some (JString "direct")) as Habs; [|discriminate Habs].
  apply H; try reflexivity. intros Heq; discriminate Heq.
Qed.

Lemma template_missing_or_malformed_witness :
  (loadSelectors Sample.ReadFile Sample.Unmarshal_SelectorsConfig
     Sample.json_Decode "config/none.scheme.json" = ([], None)
   ∧ merge_template Sample.ReadFile Sample.Unmarshal_SelectorsConfig
       Sample.json_Decode "config/none.scheme.json" ["JP"] = Continue [])
  ∧ (∃ err,
       loadSelectors Sample.ReadFile Sample.Unmarshal_SelectorsConfig
         Sample.json_Decode "config/cut.scheme.json" = ([], Some err)
       ∧ merge_template Sample.ReadFile Sample.Unmarshal_SelectorsConfig
           Sample.json_Decode "config/cut.scheme.json" ["JP"] = Fatal err)
  ∧ (∃ err,
       loadSelectors Sample.ReadFile Sample.Unmarshal_SelectorsConfig
         Sample.json_Decode "config/bad.scheme.json" = ([], Some err)
       ∧ merge_template Sample.ReadFile Sample.Unmarshal_SelectorsConfig
           Sample.json_Decode "config/bad.scheme.json" ["JP"] = Fatal err).
Proof.
  split; [|split].
  - apply (proj1 (template_missing_or_malformed
                    Sample.ReadFile Sample.Unmarshal_SelectorsConfig
                    Sample.json_Decode "config/none.scheme.json" ["JP"])
             (ErrNotExist "config/none.scheme.json"));
      vm_compute; reflexivity.
  - apply (proj2 (template_missing_or_malformed
                    Sample.ReadFile Sample.Unmarshal_SelectorsConfig
                    Sample.json_Decode "config/cut.scheme.json" ["JP"])
             "{");
      vm_compute; reflexivity.
  - apply (proj2 (template_missing_or_malformed
                    Sample.ReadFile Sample.Unmarshal_SelectorsConfig
                    Sample.json_Decode "config/bad.scheme.json" ["JP"])
             Sample.bad_template);
      vm_compute; reflexivity.
Defined.

Example template_examples :
  Json.into_selector
    (JObject [("Type", JString "selector"); ("TAG", JString "proxy");
              ("outbounds", JArray [JString "a"; JNull]);
              ("interrupt_exist_connections", JBool true)])
  = ({| SelBase := {| Type_ := "selector"; Tag := "proxy" |};
        Outbounds := ["a"; ""] |}, None)
  ∧ (Json.into_base (JObject [("type", JNumber "5")])).2
    = Some (ErrJSON "cannot unmarshal value into Go value of type string")
  ∧ Json.into_base (JString "selector")
    = ("", Some (ErrJSON "cannot unmarshal value into Go struct"))
  ∧ Json.into_base JNull = ("", None).
Proof. by vm_compute. Qed.

(** ** The run on the spec's examples *)

(** Two lines with the same host and port, labelled [SG 01] and
    [SG 02]: one record, labelled [SG 02] by the registry and [SG] after
    the collapse, no group, and [SG] appended to the template's
    selector. *)
Example configure_same_endpoint :
  match configure sample_url_Parse sample_So Sample.ReadFile
          Sample.Unmarshal_SelectorsConfig Sample.json_Decode ["SG"]
          (Join ["trojan://p@1.2.3.4:443?sni=a#SG%2001";
                 "trojan://p@1.2.3.4:443?sni=a#SG%2002"] (String "010" ""))
  with
  | Some (Continue (g, selectors)) =>
    servers g
    = [ {| Base := {| Type_ := "trojan"; Tag := "SG" |};
           Server := "1.2.3.4"; ServerPort := 443; Password := "p";
           TLS := {| Enabled := true; ServerName := "a";
                     Insecure := false |} |} ]
    ∧ groups g = []
    ∧ regionOrder g = ["SG"]
    ∧ selectors
      = [Raw Sample.raw_direct;
         Sel {| SelBase := {| Type_ := "selector"; Tag := "proxy" |};
                Outbounds := ["direct"; "SG"] |}]
  | _ => False
  end.
Proof. by vm_compute. Qed.

(** A flag before the label is dropped, wherever it stands. *)
Example removeEmoji_flag :
  removeEmoji sample_So
    (String "240" (String "159" (String "135" (String "184"
      (String "240" (String "159" (String "135" (String "172"
        " Singapore 01"))))))))
  = " Singapore 01".
Proof. by vm_compute. Qed.

(** * Further properties *)

(** ** The line loop and the registry *)

Section LineLoopFacts.

Variable url_Parse : string → error + URL.
Variable unicode_So : Z → bool.

(** X1.  A line that is blank, that does not parse, or that has another
    scheme or no port leaves the run as if it were not there: the
    registry after the whole stream is the registry after the stream
    without that line. *)
Theorem read_lines_skips_bad_line (st : Registry.state)
    (before after : list string) (line : string) :
  (TrimSpace line = ""
   ∨ (parseTrojanURL url_Parse unicode_So (TrimSpace line)).1 = None) →
  read_lines url_Parse unicode_So st (before ++ line :: after)
  = read_lines url_Parse unicode_So st (before ++ after).
Proof.
  intros Hbad. rewrite !read_lines_registry. f_equal.
  unfold parsed_records. rewrite !omap_app. f_equal. cbn [omap list_omap].
  destruct (decide (TrimSpace line = "")) as [|Hne]; [done|].
  destruct Hbad as [|Hbad]; [done|].
  destruct (parseTrojanURL url_Parse unicode_So (TrimSpace line))
    as [[ob|] [e|]]; simpl in *; done.
Qed.

(** X2.  When the loop ends, [indexMap] is the inverse of [outbounds]:
    a key is mapped to an index exactly when the record at that index
    has that key; so every index in the map is within the slice. *)
Theorem read_lines_index_inverse (lines : list string)
    (out : list TrojanOutbound) (indexMap : gmap string nat)
    (key : string) (idx : nat) :
  read_lines url_Parse unicode_So Registry.init lines = Some (out, indexMap) →
  (indexMap !! key = Some idx
   ↔ ∃ ob, out !! idx = Some ob
           ∧ outboundKey (Server ob) (ServerPort ob) = key).
Proof.
  rewrite read_lines_registry. intros Hloop.
  destruct (registry_run_inv (parsed_records url_Parse unicode_So lines))
    as (st & Hloop' & Hinv).
  rewrite Hloop in Hloop'. injection Hloop' as <-.
  destruct Hinv as [_ Hidx Hslot _]. simpl in *. split.
  - apply Hslot.
  - intros (ob & Hob & <-). by apply Hidx.
Qed.

End LineLoopFacts.

(** X3.  Two records are filed under the same key only when they have
    the same host and the same port, whatever the host contains
    (colons of an IPv6 address included) and whatever the sign of the
    port. *)
Theorem outboundKey_same_endpoint (a b : TrojanOutbound) :
  outboundKey (Server a) (ServerPort a) = outboundKey (Server b) (ServerPort b)
  ↔ Server a = Server b ∧ ServerPort a = ServerPort b.
Proof.
  rewrite outboundKey_inj. split.
  - by intros [= -> ->].
  - by intros [-> ->].
Qed.

Lemma first_seen_NoDup {K} `{EqDecision K} (l : list K) :
  NoDup l → first_seen l = l.
Proof.
  induction 1 as [|x l Hx Hnd IH]; [done|]. simpl. rewrite IH. f_equal.
  clear IH Hnd. induction l as [|y l IH]; [done|].
  apply not_elem_of_cons in Hx as [Hxy Hx].
  rewrite filter_cons_True by done. f_equal. by apply IH.
Qed.

Lemma registry_run_NoDup (recs : list TrojanOutbound) :
  NoDup (identity <$> recs) → Registry.run recs = Some recs.
Proof.
  intros Hnd.
  destruct (registry_run_spec recs) as (out & -> & Hord & _ & _ & Hlast & _).
  f_equal. rewrite (first_seen_NoDup _ Hnd) in Hord.
  apply list_eq. intros i.
  destruct (out !! i) as [ob'|] eqn:Hout.
  - assert ((identity <$> recs) !! i = Some (identity ob')) as Hi
        by (by rewrite <- Hord, list_lookup_fmap, Hout).
    rewrite list_lookup_fmap in Hi.
    destruct (recs !! i) as [ob|] eqn:Hrec; [|done].
    simpl in Hi. assert (identity ob = identity ob') as Hid by congruence.
    assert (ob' ∈ out) as Hin by (by eapply list_elem_of_lookup_2).
    apply Hlast in Hin. unfold Registry.last_with in Hin.
    apply last_Some_elem_of, list_elem_of_filter in Hin as [_ Hin].
    apply list_elem_of_lookup in Hin as [j Hj].
    assert (i = j) as <-.
    { eapply (NoDup_lookup _ _ _ (identity ob') Hnd).
      - rewrite list_lookup_fmap, Hrec. simpl. by rewrite Hid.
      - by rewrite list_lookup_fmap, Hj. }
    congruence.
  - apply lookup_ge_None in Hout. symmetry. apply lookup_ge_None.
    apply (f_equal length) in Hord. rewrite !length_fmap in Hord. lia.
Qed.

(** X4.  Deduplication is idempotent: the registry's output, given to
    the registry again, comes out unchanged. *)
Theorem registry_run_idempotent (recs out : list TrojanOutbound) :
  Registry.run recs = Some out → Registry.run out = Some out.
Proof.
  intros Hrun. apply registry_run_NoDup.
  destruct (registry_run_spec recs) as (out' & Hrun' & _ & Hnd & _).
  rewrite Hrun in Hrun'. by injection Hrun' as ->.
Qed.

(** ** Region classifier *)

Lemma classify_index_inv (seen : list TrojanOutbound) :
  ∀ rt ri ro, Classifier.classify seen = (rt, ri, ro) →
    ∀ R i, ri !! R = Some i ↔ ro !! i = Some R.
Proof.
  unfold Classifier.classify.
  induction seen as [|ob seen IH] using rev_ind; intros rt ri ro.
  - intros [= <- <- <-] R i. by rewrite lookup_empty, lookup_nil.
  - rewrite foldl_snoc.
    destruct (foldl Classifier.step Classifier.init seen) as [[rt0 ri0] ro0].
    specialize (IH _ _ _ eq_refl). unfold Classifier.step.
    destruct (ri0 !! extractRegion (TagOf ob)) as [idx|] eqn:Hlook.
    + intros [= <- <- <-]. apply IH.
    + intros [= <- <- <-] R i. rewrite lookup_insert.
      destruct (decide (extractRegion (TagOf ob) = R)) as [<-|Hne].
      * split.
        -- intros [= <-]. by rewrite lookup_app_r, Nat.sub_diag.
        -- intros [[_ Hi]|[-> _]]%lookup_snoc_Some; [|done].
           apply IH in Hi. congruence.
      * rewrite IH. split.
        -- intros Hi. by apply lookup_app_l_Some.
        -- intros [[_ Hi]|[_ ?]]%lookup_snoc_Some; [done|congruence].
Qed.

(** X5.  After the classification [regionOrder] lists every region
    once, in order of discovery; [regionIndex] sends a region to its
    position in [regionOrder]; and [regionTags] holds, for exactly the
    regions listed, the labels of the region's records in the order of
    the records, at least one per region. *)
Theorem classify_tables (outbounds : list TrojanOutbound)
    (rt : gmap string (list string)) (ri : gmap string nat)
    (ro : list string) :
  Classifier.classify outbounds = (rt, ri, ro) →
  ro = first_seen (region_of <$> outbounds)
  ∧ NoDup ro
  ∧ (∀ R i, ri !! R = Some i ↔ ro !! i = Some R)
  ∧ (∀ R, R ∈ ro → rt !! R = Some (members outbounds R)
                   ∧ members outbounds R ≠ [])
  ∧ (∀ R, R ∉ ro → rt !! R = None ∧ members outbounds R = []).
Proof.
  intros Hcl.
  destruct (classify_inv outbounds _ _ _ Hcl) as (Hro & Hri & Hrt & Hnone).
  split_and!.
  - done.
  - rewrite Hro. apply NoDup_first_seen.
  - by apply classify_index_inv with (seen := outbounds) (rt := rt).
  - intros R HR.
    assert (rt !! R ≠ None) as Hsome by (by rewrite Hnone; intros Hn).
    specialize (Hrt R). destruct (rt !! R) as [tags|]; [|done].
    simpl in Hrt. subst tags. split; [done|].
    rewrite Hro, elem_of_first_seen in HR.
    apply list_elem_of_fmap in HR as (ob & -> & Hob).
    unfold members. intros Hnil.
    assert (ob ∈ filter (λ ob0, region_of ob0 = region_of ob) outbounds)
      as Hin by (by apply list_elem_of_filter).
    apply (list_elem_of_fmap_2 TagOf) in Hin. rewrite Hnil in Hin.
    by apply elem_of_nil in Hin.
  - intros R HR. apply Hnone in HR as Hn. split; [done|].
    specialize (Hrt R). by rewrite Hn in Hrt.
Qed.

Lemma concat_add_one {A} `{EqDecision K} (g : K → list A) (x : A) (k0 : K)
    (ks : list K) :
  NoDup ks → k0 ∈ ks →
  concat ((λ k, if decide (k0 = k) then x :: g k else g k) <$> ks)
  ≡ₚ x :: concat (g <$> ks).
Proof.
  induction 1 as [|k ks Hk Hnd IH]; [by intros ?%elem_of_nil|].
  rewrite !fmap_cons, !concat_cons. cbn beta.
  intros [->|Hin]%elem_of_cons.
  - rewrite decide_True by done.
    assert ((λ k1, if decide (k = k1) then x :: g k1 else g k1) <$> ks
            = g <$> ks) as ->; [|done].
    apply list_fmap_ext. intros i k' Hk'.
    rewrite decide_False; [done|]. intros <-.
    apply Hk. by eapply list_elem_of_lookup_2.
  - rewrite decide_False by (intros ->; done).
    rewrite IH by done. by rewrite Permutation_middle.
Qed.

(** Grouping a list by a key, over a duplicate-free list of keys that
    holds every key that occurs, rearranges the list and loses
    nothing. *)
Lemma group_by_key_perm {A} `{EqDecision K} (f : A → K) (l : list A)
    (ks : list K) :
  NoDup ks → (∀ x, x ∈ l → f x ∈ ks) →
  concat ((λ k, filter (λ x, f x = k) l) <$> ks) ≡ₚ l.
Proof.
  intros Hnd. induction l as [|x l IH]; intros Hall.
  - clear. induction ks as [|k ks IHk]; [done|]. by simpl.
  - trans (x :: concat ((λ k, filter (λ y, f y = k) l) <$> ks)).
    + rewrite <- (concat_add_one _ x (f x) ks Hnd);
        [|apply Hall; by left].
      assert ((λ k, filter (λ y, f y = k) (x :: l)) <$> ks
              = (λ k, if decide (f x = k)
                      then x :: filter (λ y, f y = k) l
                      else filter (λ y, f y = k) l) <$> ks) as ->; [|done].
      apply list_fmap_ext. intros i k _.
      destruct (decide (f x = k)) as [Heq|Hne].
      * by rewrite filter_cons_True.
      * by rewrite filter_cons_False.
    + f_equiv. apply IH. intros y Hy. apply Hall. by right.
Qed.

(** X6.  The classification is a partition of the labels: the member
    lists of the regions, taken in region order, hold together exactly
    the labels of the records, each as often as it occurs. *)
Theorem classify_partition (outbounds : list TrojanOutbound)
    (rt : gmap string (list string)) (ri : gmap string nat)
    (ro : list string) :
  Classifier.classify outbounds = (rt, ri, ro) →
  concat ((λ R, default [] (rt !! R)) <$> ro) ≡ₚ TagOf <$> outbounds.
Proof.
  intros Hcl.
  destruct (classify_inv outbounds _ _ _ Hcl) as (Hro & _ & Hrt & _).
  assert ((λ R, default [] (rt !! R)) <$> ro
          = (λ R, TagOf <$> filter (λ ob, region_of ob = R) outbounds) <$> ro)
    as ->.
  { apply list_fmap_ext. intros i R _. apply Hrt. }
  assert (∀ ks : list string,
            concat ((λ R, TagOf <$> filter (λ ob, region_of ob = R) outbounds)
                    <$> ks)
            = TagOf <$> concat ((λ R, filter (λ ob, region_of ob = R) outbounds)
                                <$> ks)) as ->.
  { induction ks as [|k ks IH]; [done|].
    rewrite !fmap_cons, !concat_cons, fmap_app. cbn beta. by rewrite IH. }
  f_equiv. apply group_by_key_perm.
  - rewrite Hro. apply NoDup_first_seen.
  - intros ob Hob. rewrite Hro, elem_of_first_seen.
    by apply list_elem_of_fmap_2.
Qed.

(** ** Singleton collapse *)

Lemma set_Tag_same (ob : TrojanOutbound) (t : string) :
  TagOf ob = t → set_Tag ob t = ob.
Proof. intros <-. by destruct ob as [[ty tag] ? ? ? ?]. Qed.

Lemma unlabelled_set_Tag (ob : TrojanOutbound) (t : string) :
  unlabelled (set_Tag ob t) = unlabelled ob.
Proof. done. Qed.

Lemma rename_first_same (t : string) (l : list TrojanOutbound) :
  Collapse.rename_first t t l = l.
Proof.
  induction l as [|ob l IH]; [done|]. simpl.
  case_decide; [by rewrite set_Tag_same|by rewrite IH].
Qed.

(** The search renames at most one record, one that carries the
    searched label. *)
Lemma rename_first_lookup (x R : string) (l : list TrojanOutbound) (k : nat) :
  Collapse.rename_first x R l !! k = l !! k
  ∨ ∃ ob, l !! k = Some ob ∧ TagOf ob = x
          ∧ Collapse.rename_first x R l !! k = Some (set_Tag ob R).
Proof.
  revert k. induction l as [|ob l IH]; intros k; [by left|]. simpl.
  case_decide as Htag.
  - destruct k as [|k]; [right; eauto|by left].
  - destruct k as [|k]; [by left|]. apply IH.
Qed.

(** When one record only carries the searched label, that record is
    the one renamed. *)
Lemma rename_first_unique (x R : string) (l : list TrojanOutbound)
    (i : nat) (ob : TrojanOutbound) :
  l !! i = Some ob → TagOf ob = x →
  (∀ j ob', l !! j = Some ob' → TagOf ob' = x → j = i) →
  Collapse.rename_first x R l = <[i := set_Tag ob R]> l.
Proof.
  revert i. induction l as [|a l IH]; intros i Hi Htag Huniq; [done|].
  simpl. case_decide as Ha.
  - assert (0%nat = i) as <- by (by apply (Huniq 0%nat a)).
    injection Hi as ->. done.
  - destruct i as [|i]; [simpl in Hi; congruence|].
    simpl. f_equal. apply IH; [done..|].
    intros j ob' Hj Hx. specialize (Huniq (S j) ob' Hj Hx). lia.
Qed.

Lemma rename_first_unlabelled (x R : string) (l : list TrojanOutbound) :
  unlabelled <$> Collapse.rename_first x R l = unlabelled <$> l.
Proof.
  induction l as [|ob l IH]; [done|]. simpl.
  case_decide; [done|]. by rewrite !fmap_cons, IH.
Qed.

Lemma collapse_run_unlabelled (visit : list string) (st : Collapse.state) :
  unlabelled <$> (Collapse.run visit st).1 = unlabelled <$> st.1.
Proof.
  unfold Collapse.run. revert st.
  induction visit as [|region visit IH]; intros st; [done|]. simpl.
  rewrite IH. destruct st as [obs rt]. unfold Collapse.step.
  destruct (rt !! region) as [[|x [|y tags]]|]; try done.
  apply rename_first_unlabelled.
Qed.

(** X7.  Whatever the order of the range over the map, the collapse
    changes labels only: the records written to the servers file are
    as many as the registry gave, in the same order, each with the
    type, host, port, password and TLS settings it had. *)
Theorem collapse_changes_labels_only (visit : list string)
    (outbounds : list TrojanOutbound) :
  unlabelled <$> servers (pipeline visit outbounds) = unlabelled <$> outbounds.
Proof.
  unfold pipeline.
  destruct (Classifier.classify outbounds) as [[rt ri] ro].
  pose proof (collapse_run_unlabelled visit (outbounds, rt)) as Hrun.
  by destruct (Collapse.run visit (outbounds, rt)) as [obs' rt'].
Qed.

(** The member labels of a region are labels of that region. *)
Lemma members_region (outbounds : list TrojanOutbound) (R x : string) :
  x ∈ members outbounds R →
  ∃ ob, ob ∈ outbounds ∧ TagOf ob = x ∧ region_of ob = R ∧ extractRegion x = R.
Proof.
  unfold members. intros (ob & -> & [HR Hin]%list_elem_of_filter)%list_elem_of_fmap.
  exists ob. by rewrite <- HR.
Qed.

Lemma elem_of_members (outbounds : list TrojanOutbound) (ob : TrojanOutbound) :
  ob ∈ outbounds → TagOf ob ∈ members outbounds (region_of ob).
Proof.
  intros Hin. unfold members. apply list_elem_of_fmap_2.
  by apply list_elem_of_filter.
Qed.

(** The collapse, whatever the order and whatever the labels: records
    of regions with more or fewer members than one are never touched,
    and a member list of length one holds the region's only label or,
    once the region was visited, the region's key. *)
Lemma collapse_run_inv (outbounds : list TrojanOutbound)
    (visit : list string) (st : Collapse.state) :
  (∀ k ob, outbounds !! k = Some ob →
           length (members outbounds (region_of ob)) ≠ 1%nat →
           st.1 !! k = Some ob) →
  (∀ R x, st.2 !! R = Some [x] → x = R ∨ members outbounds R = [x]) →
  (∀ k ob, outbounds !! k = Some ob →
           length (members outbounds (region_of ob)) ≠ 1%nat →
           (Collapse.run visit st).1 !! k = Some ob)
  ∧ (∀ R x, (Collapse.run visit st).2 !! R = Some [x] →
            x = R ∨ members outbounds R = [x]).
Proof.
  unfold Collapse.run. revert st.
  induction visit as [|region visit IH]; intros st Hkeep Hlist; [done|].
  simpl. apply IH; destruct st as [cur rt]; unfold Collapse.step;
    destruct (rt !! region) as [[|x [|y tags]]|] eqn:Hreg; try done;
    cbn [fst snd] in *.
  - intros k ob Hk Hmulti. specialize (Hkeep k ob Hk Hmulti).
    destruct (rename_first_lookup x region cur k) as [->|(ob' & Hob' & Htag & ->)];
      [done|].
    rewrite Hkeep in Hob'. injection Hob' as <-.
    destruct (Hlist _ _ Hreg) as [->|Hmem].
    + by rewrite set_Tag_same.
    + exfalso. apply Hmulti.
      assert (TagOf ob ∈ members outbounds region) as Hin
        by (rewrite Hmem, Htag; by left).
      apply members_region in Hin as (_ & _ & _ & _ & Hregion).
      unfold region_of. by rewrite Hregion, Hmem.
  - intros R x'. rewrite lookup_insert. case_decide as HR.
    + intros [= <-]. by left.
    + apply Hlist.
Qed.

(** ** Group synthesizer *)

Lemma synth_run_snoc (rt : gmap string (list string)) (regions : list string)
    (R : string) :
  Synth.run rt (regions ++ [R]) = Synth.run rt regions ++ Synth.step rt [] R.
Proof.
  rewrite synth_run_middle. unfold Synth.run at 3. simpl.
  by rewrite app_nil_r.
Qed.

(** What the synthesizer emits: for each listed region with more than
    one member label, the aggregator and the selector of that region,
    and nothing else. *)
Lemma elem_of_synth_run (rt : gmap string (list string))
    (regions : list string) (g : GroupOutbound) :
  g ∈ Synth.run rt regions ↔
  ∃ R, R ∈ regions
       ∧ (1 < length (default [] (rt !! R)))%nat
       ∧ (g = Synth.urltest R (default [] (rt !! R))
          ∨ g = Synth.selector R (default [] (rt !! R))).
Proof.
  induction regions as [|R regions IH] using rev_ind.
  - split; [by intros ?%elem_of_nil|]. by intros (R & ?%elem_of_nil & _).
  - rewrite synth_run_snoc, elem_of_app, IH. unfold Synth.step.
    split.
    + intros [(R' & HR' & Hlen & Hg)|Hg].
      * exists R'. rewrite elem_of_app. eauto.
      * case_decide as Hlen; [by apply elem_of_nil in Hg|].
        cbn [app] in Hg. rewrite !elem_of_cons, elem_of_nil in Hg.
        exists R. rewrite elem_of_app, list_elem_of_singleton.
        split_and!; [by right|lia|tauto].
    + intros (R' & [HR'|HR']%elem_of_app & Hlen & Hg).
      * left. eauto.
      * apply list_elem_of_singleton in HR' as ->.
        right. rewrite decide_False by lia.
        cbn [app]. rewrite !elem_of_cons. tauto.
Qed.

(** X8.  Whatever the order of the range over the map, every name in
    the member list of an emitted group exists: it is the label of a
    record in the servers list or the name of an emitted [urltest]
    group.  (The collapse renames records of one-member regions only,
    and those are in no group.) *)
Theorem group_members_exist (visit : list string)
    (outbounds : list TrojanOutbound) (g : GroupOutbound) (t : string) :
  g ∈ groups (pipeline visit outbounds) →
  t ∈ Outbounds (Selector g) →
  (∃ ob, ob ∈ servers (pipeline visit outbounds) ∧ TagOf ob = t)
  ∨ (∃ g', g' ∈ groups (pipeline visit outbounds)
           ∧ Type_ (SelBase (Selector g')) = "urltest"
           ∧ Tag (SelBase (Selector g')) = t).
Proof.
  unfold pipeline.
  destruct (Classifier.classify outbounds) as [[rt ri] ro] eqn:Hcl.
  destruct (classify_inv outbounds _ _ _ Hcl) as (Hro & _ & Hrt & _).
  destruct (collapse_run_inv outbounds visit (outbounds, rt)) as [Hkeep _].
  { by intros k ob Hk _. }
  { intros R x Hx. simpl in Hx. right. by rewrite <- Hrt, Hx. }
  pose proof (collapse_run_length visit (outbounds, rt)) as Hlen.
  pose proof (collapse_run_lookup visit (outbounds, rt)) as Hsame.
  destruct (Collapse.run visit (outbounds, rt)) as [obs' rt'].
  cbn [servers groups fst snd] in *.
  intros (R & HR & Hmany & Hg)%elem_of_synth_run Ht.
  assert (default [] (rt' !! R) = members outbounds R) as Htags.
  { rewrite <- Hrt. f_equal. apply Hsame. intros x Hx.
    specialize (Hlen R). rewrite Hx in Hlen. simpl in Hlen.
    rewrite <- Hlen in Hmany. simpl in Hmany. lia. }
  rewrite Htags in *.
  assert (t ∈ members outbounds R →
          ∃ ob, ob ∈ obs' ∧ TagOf ob = t) as Hrecord.
  { intros (ob & Hob & Htag & Hreg & _)%members_region.
    apply list_elem_of_lookup in Hob as [k Hk].
    exists ob. split; [|done]. apply (list_elem_of_lookup_2 _ k).
    apply Hkeep; [done|]. rewrite Hreg. lia. }
  destruct Hg as [-> | ->]; simpl in Ht.
  - left. by apply Hrecord.
  - apply elem_of_cons in Ht as [->|Ht]; [|left; by apply Hrecord].
    right. exists (Synth.urltest R (members outbounds R)).
    split; [|done]. apply elem_of_synth_run. exists R.
    rewrite Htags. eauto.
Qed.

(** X9.  The groups come in pairs: the list has two groups for every
    region with more than one member and none for any other, so its
    length is twice the number of such regions; every aggregator lists
    at least two members, every selector at least three. *)
Theorem groups_shape (visit : list string) (outbounds : list TrojanOutbound) :
  length (groups (pipeline visit outbounds))
  = (2 * length (filter (λ R, 1 < length (members outbounds R))%nat
                        (first_seen (region_of <$> outbounds))))%nat
  ∧ ∀ g, g ∈ groups (pipeline visit outbounds) →
         (Type_ (SelBase (Selector g)) = "urltest"
          ∧ InterruptExistConnections g = false
          ∧ 2 ≤ length (Outbounds (Selector g)))%nat
         ∨ (Type_ (SelBase (Selector g)) = "selector"
            ∧ InterruptExistConnections g = true
            ∧ 3 ≤ length (Outbounds (Selector g)))%nat.
Proof.
  unfold pipeline.
  destruct (Classifier.classify outbounds) as [[rt ri] ro] eqn:Hcl.
  destruct (classify_inv outbounds _ _ _ Hcl) as (Hro & _ & Hrt & _).
  pose proof (collapse_run_length visit (outbounds, rt)) as Hlen.
  destruct (Collapse.run visit (outbounds, rt)) as [obs' rt'].
  cbn [servers groups fst snd] in *. rewrite <- Hro. split.
  - clear Hro Hcl. induction ro as [|R ro IH] using rev_ind; [done|].
    rewrite synth_run_snoc, length_app, IH, filter_app, length_app.
    assert (length (default [] (rt' !! R)) = length (members outbounds R))
      as Hmem by (by rewrite Hlen, Hrt).
    unfold Synth.step.
    destruct (decide (1 < length (members outbounds R))%nat).
    + rewrite filter_cons_True, decide_False by lia. simpl. lia.
    + rewrite filter_cons_False, decide_True by lia. simpl. lia.
  - intros g (R & _ & Hmany & [-> | ->])%elem_of_synth_run; simpl.
    + left. split_and!; [done..|lia].
    + right. split_and!; [done..|lia].
Qed.

Lemma filter_two {A} (P : A → Prop) `{∀ x, Decision (P x)} (l : list A)
    (i j : nat) (a b : A) :
  (i < j)%nat → l !! i = Some a → l !! j = Some b → P a → P b →
  (2 ≤ length (filter P l))%nat.
Proof.
  revert i j. induction l as [|x l IH]; intros i j Hij Hi Hj Ha Hb; [done|].
  destruct j as [|j]; [lia|]. destruct i as [|i].
  - injection Hi as ->. rewrite filter_cons_True by done. simpl.
    assert (b ∈ filter P l) as Hin.
    { apply list_elem_of_filter. split; [done|].
      by eapply list_elem_of_lookup_2. }
    destruct (filter P l); [by apply elem_of_nil in Hin|simpl; lia].
  - assert (2 ≤ length (filter P l))%nat as Hl
      by (apply (IH i j); [lia|done..]).
    rewrite filter_cons. case_decide; simpl; lia.
Qed.

(** A region with one member has its record at one index only. *)
Lemma members_single_index (outbounds : list TrojanOutbound) (R : string)
    (i j : nat) (a b : TrojanOutbound) :
  length (members outbounds R) = 1%nat →
  outbounds !! i = Some a → outbounds !! j = Some b →
  region_of a = R → region_of b = R → i = j.
Proof.
  unfold members. rewrite length_fmap. intros Hone Hi Hj Ha Hb.
  destruct (Nat.lt_trichotomy i j) as [Hlt|[->|Hlt]]; [|done|].
  - pose proof (filter_two (λ ob, region_of ob = R) _ _ _ _ _ Hlt Hi Hj Ha Hb).
    lia.
  - pose proof (filter_two (λ ob, region_of ob = R) _ _ _ _ _ Hlt Hj Hi Hb Ha).
    lia.
Qed.

Lemma fmap_insert_agree {A B} (f g : A → B) (l : list A) (i : nat) (a : A) :
  l !! i = Some a →
  (∀ j x, l !! j = Some x → j ≠ i → f x = g x) →
  <[i := g a]> (f <$> l) = g <$> l.
Proof.
  intros Hi Hagree. apply list_eq. intros j.
  destruct (decide (j = i)) as [->|Hne].
  - rewrite list_lookup_insert_eq
      by (rewrite length_fmap; by eapply lookup_lt_Some).
    by rewrite list_lookup_fmap, Hi.
  - rewrite list_lookup_insert_ne by done. rewrite !list_lookup_fmap.
    destruct (l !! j) as [x|] eqn:Hj; [|done]. simpl.
    by rewrite (Hagree j x).
Qed.

Lemma visited_snoc_other (visited : list string) (region X : string)
    (P : Prop) :
  (X = region → X ∈ visited ∨ ¬ P) →
  (X ∈ visited ++ [region] ∧ P ↔ X ∈ visited ∧ P).
Proof.
  intros Hsame. rewrite elem_of_app, list_elem_of_singleton. tauto.
Qed.

(** One visit of the collapse, when no key of a one-member region is
    the label of another record: the visited region, if it has one
    member, gets its record renamed, and nothing else changes. *)
Lemma collapse_step_after (outbounds : list TrojanOutbound)
    (rt : gmap string (list string)) (visited : list string)
    (region : string) (st : Collapse.state) :
  no_label_collision outbounds →
  (∀ R, default [] (rt !! R) = members outbounds R) →
  st.1 = collapsed_after visited outbounds →
  (∀ R, st.2 !! R
        = if decide (R ∈ visited ∧ length (members outbounds R) = 1%nat)
          then Some [R] else rt !! R) →
  (Collapse.step st region).1 = collapsed_after (visited ++ [region]) outbounds
  ∧ (∀ R, (Collapse.step st region).2 !! R
          = if decide (R ∈ visited ++ [region]
                       ∧ length (members outbounds R) = 1%nat)
            then Some [R] else rt !! R).
Proof.
  intros Hfree Hrt Hcur Hlist. destruct st as [cur rt_cur].
  cbn [fst snd] in *. subst cur.
  destruct (decide (length (members outbounds region) = 1%nat)) as [Hone|Hmany].
  - destruct (decide (region ∈ visited)) as [Hseen|Hnew].
    + (* visited before: the list holds the key, nothing moves *)
      unfold Collapse.step.
      rewrite (Hlist region), decide_True by done.
      rewrite rename_first_same. cbn [fst snd]. split.
      * apply list_fmap_ext. intros _ ob _. symmetry.
        apply decide_ext, visited_snoc_other. intros ->. by left.
      * intros R. rewrite lookup_insert. case_decide as HR.
        -- subst R. rewrite decide_True; [done|].
           rewrite elem_of_app. tauto.
        -- rewrite Hlist. symmetry.
           apply decide_ext, visited_snoc_other. congruence.
    + (* first visit of a region with one member *)
      unfold Collapse.step.
      rewrite (Hlist region), decide_False by tauto.
      pose proof (Hrt region) as Hmem.
      destruct (rt !! region) as [tags|] eqn:Hreg;
        [|simpl in Hmem; rewrite <- Hmem in Hone; done].
      simpl in Hmem. subst tags.
      destruct (members outbounds region) as [|x [|y tags]] eqn:Hx; try done.
      assert (x ∈ members outbounds region) as Hin by (rewrite Hx; by left).
      apply members_region in Hin as (ob & Hob & Htag & Hregion & Hxr).
      apply list_elem_of_lookup in Hob as [i Hi].
      cbn [fst snd].
      rewrite (rename_first_unique x region _ i ob).
      * split.
        -- unfold collapsed_after.
           set (f := λ ob0 : TrojanOutbound,
                  if decide (region_of ob0 ∈ visited
                             ∧ length (members outbounds (region_of ob0)) = 1%nat)
                  then set_Tag ob0 (region_of ob0) else ob0).
           set (g := λ ob0 : TrojanOutbound,
                  if decide (region_of ob0 ∈ visited ++ [region]
                             ∧ length (members outbounds (region_of ob0)) = 1%nat)
                  then set_Tag ob0 (region_of ob0) else ob0).
           assert (set_Tag ob region = g ob) as ->.
           { unfold g. rewrite Hregion, decide_True; [done|].
             rewrite elem_of_app, list_elem_of_singleton, Hx. auto. }
           apply fmap_insert_agree; [done|].
           intros j ob' Hj Hne. unfold f, g.
           apply decide_ext. symmetry. apply visited_snoc_other.
           intros Heq. exfalso. apply Hne.
           apply (members_single_index outbounds region j i ob' ob);
             [by rewrite Hx|done..].
        -- intros R. rewrite lookup_insert. case_decide as HR.
           ++ subst R. rewrite decide_True; [done|].
              rewrite elem_of_app, list_elem_of_singleton, Hx. auto.
           ++ rewrite Hlist. symmetry.
              apply decide_ext, visited_snoc_other. congruence.
      * unfold collapsed_after. rewrite list_lookup_fmap, Hi. simpl.
        rewrite decide_False; [done|]. rewrite Hregion. tauto.
      * done.
      * intros j ob' Hj Hx'. unfold collapsed_after in Hj.
        rewrite list_lookup_fmap in Hj.
        destruct (outbounds !! j) as [ob0|] eqn:Hj0; [|done].
        simpl in Hj. injection Hj as <-.
        destruct (decide (j = i)) as [|Hne]; [done|]. exfalso.
        destruct (decide (region_of ob0 ∈ visited ∧ _)) as [[Hv Hs]|Hn].
        -- apply (Hfree j i ob0 ob Hj0 Hi Hne Hs).
           rewrite Htag. by rewrite <- Hx'.
        -- apply Hne.
           apply (members_single_index outbounds region j i ob0 ob);
             [by rewrite Hx|done|done| |done].
           unfold region_of. by rewrite Hx'.
  - (* more or fewer members than one: the step does nothing *)
    assert (Collapse.step (collapsed_after visited outbounds, rt_cur) region
            = (collapsed_after visited outbounds, rt_cur)) as ->.
    { unfold Collapse.step. rewrite (Hlist region), decide_False by tauto.
      pose proof (Hrt region) as Hmem.
      destruct (rt !! region) as [[|x [|y tags]]|]; try done.
      simpl in Hmem. rewrite <- Hmem in Hmany. done. }
    cbn [fst snd]. split.
    + apply list_fmap_ext. intros _ ob _. symmetry.
      apply decide_ext, visited_snoc_other. intros ->. by right.
    + intros R. rewrite Hlist. symmetry.
      apply decide_ext, visited_snoc_other. intros ->. by right.
Qed.

Lemma collapse_run_after (outbounds : list TrojanOutbound)
    (rt : gmap string (list string)) (visit visited : list string)
    (st : Collapse.state) :
  no_label_collision outbounds →
  (∀ R, default [] (rt !! R) = members outbounds R) →
  st.1 = collapsed_after visited outbounds →
  (∀ R, st.2 !! R
        = if decide (R ∈ visited ∧ length (members outbounds R) = 1%nat)
          then Some [R] else rt !! R) →
  (Collapse.run visit st).1 = collapsed_after (visited ++ visit) outbounds
  ∧ (∀ R, (Collapse.run visit st).2 !! R
          = if decide (R ∈ visited ++ visit
                       ∧ length (members outbounds R) = 1%nat)
            then Some [R] else rt !! R).
Proof.
  intros Hfree Hrt. unfold Collapse.run. revert visited st.
  induction visit as [|region visit IH]; intros visited st Hcur Hlist.
  - by rewrite app_nil_r.
  - simpl.
    destruct (collapse_step_after outbounds rt visited region st)
      as [Hcur' Hlist']; [done..|].
    replace (visited ++ region :: visit) with ((visited ++ [region]) ++ visit)
      by (by rewrite <- app_assoc).
    by apply IH.
Qed.

(** The collapse on labels that do not collide, in whatever order the
    map is ranged over. *)
Lemma pipeline_collapsed (visit : list string)
    (outbounds : list TrojanOutbound) :
  no_label_collision outbounds →
  Collapse.visit_order visit (Classifier.classify outbounds).1.1 →
  servers (pipeline visit outbounds) = collapsed outbounds
  ∧ ∀ R, length (members outbounds R) = 1%nat →
         regionTags (pipeline visit outbounds) !! R = Some [R].
Proof.
  intros Hfree Hvisit. unfold pipeline.
  destruct (Classifier.classify outbounds) as [[rt ri] ro] eqn:Hcl.
  destruct (classify_inv outbounds _ _ _ Hcl) as (Hro & _ & Hrt & _).
  cbn [fst snd] in Hvisit.
  destruct (collapse_run_after outbounds rt visit [] (outbounds, rt))
    as [Hcur Hlist]; [done..| | |].
  { cbn [fst]. unfold collapsed_after. symmetry.
    rewrite <- (list_fmap_id outbounds) at 2.
    apply list_fmap_ext. intros _ ob _.
    rewrite decide_False; [done|]. intros [?%elem_of_nil _]. done. }
  { intros R. cbn [snd]. rewrite decide_False; [done|].
    intros [?%elem_of_nil _]. done. }
  destruct (Collapse.run visit (outbounds, rt)) as [obs' rt'].
  cbn [fst snd servers regionTags app] in *.
  assert (∀ R, length (members outbounds R) = 1%nat → R ∈ visit) as Hcover.
  { intros R Hone. rewrite Hvisit.
    specialize (Hrt R). destruct (rt !! R) as [tags|] eqn:HR.
    - apply list_elem_of_fmap. exists (R, tags). split; [done|].
      by apply elem_of_map_to_list.
    - simpl in Hrt. rewrite <- Hrt in Hone. done. }
  split.
  - rewrite Hcur. apply list_fmap_ext. intros _ ob _.
    apply decide_ext. split; [tauto|]. intros Hone. split; [|done].
    by apply Hcover.
  - intros R Hone. rewrite Hlist, decide_True; [done|].
    split; [by apply Hcover|done].
Qed.

(** X10.  When no key of a one-member region is the label of another
    record, the collapse does what it is meant to do, in whatever order
    the map is ranged over: in the servers list the only member of a
    region carries the region's key as its label, every other record
    is as the registry gave it, and the member list of a one-member
    region holds the key alone. *)
Theorem collapse_correct_without_collision (visit : list string)
    (outbounds : list TrojanOutbound) :
  no_label_collision outbounds →
  Collapse.visit_order visit (Classifier.classify outbounds).1.1 →
  servers (pipeline visit outbounds) = collapsed outbounds
  ∧ ∀ R, length (members outbounds R) = 1%nat →
         regionTags (pipeline visit outbounds) !! R = Some [R].
Proof. apply pipeline_collapsed. Qed.

(** ** Template merger *)

(** X11.  [appendUnique] keeps [dst] as it is, duplicates included, at
    the front of the result; what it appends are the values of [src]
    that [dst] lacks, each once; so the result holds exactly the values
    of [dst] and of [src], and has no duplicate that [dst] had not. *)
Theorem appendUnique_keeps_and_adds (dst src : list string) :
  take (length dst) (appendUnique dst src) = dst
  ∧ NoDup (drop (length dst) (appendUnique dst src))
  ∧ (∀ v, v ∈ drop (length dst) (appendUnique dst src) ↔ v ∈ src ∧ v ∉ dst)
  ∧ (∀ v, v ∈ appendUnique dst src ↔ v ∈ dst ∨ v ∈ src)
  ∧ (NoDup dst → NoDup (appendUnique dst src)).
Proof.
  rewrite appendUnique_spec.
  rewrite take_app_length, drop_app_length.
  assert (∀ v, v ∈ first_seen (filter (λ v0, v0 ∉ dst) src)
               ↔ v ∈ src ∧ v ∉ dst) as Hnew.
  { intros v. rewrite elem_of_first_seen, list_elem_of_filter. tauto. }
  split_and!; [done|apply NoDup_first_seen|done|..].
  - intros v. rewrite elem_of_app, Hnew.
    destruct (decide (v ∈ dst)); tauto.
  - intros Hnd. apply NoDup_app. split_and!; [done| |apply NoDup_first_seen].
    intros v Hv. rewrite Hnew. tauto.
Qed.

(** X12.  The merge leaves the list of template entries as long as it
    was and every raw entry as it was; a selector keeps its type and
    tag and its old members at the front, in their order, and after
    the merge offers every region key; nothing else is added to it. *)
Theorem merge_offers_every_region (regionOrder : list string)
    (selectors : list entry) :
  length (merge regionOrder selectors) = length selectors
  ∧ (∀ i raw, selectors !! i = Some (Raw raw) →
              merge regionOrder selectors !! i = Some (Raw raw))
  ∧ (∀ i sel, selectors !! i = Some (Sel sel) →
      ∃ sel', merge regionOrder selectors !! i = Some (Sel sel')
              ∧ SelBase sel' = SelBase sel
              ∧ take (length (Outbounds sel)) (Outbounds sel') = Outbounds sel
              ∧ (∀ R, R ∈ regionOrder → R ∈ Outbounds sel')
              ∧ (∀ v, v ∈ Outbounds sel' →
                      v ∈ Outbounds sel ∨ v ∈ regionOrder)).
Proof.
  rewrite merge_fmap. split_and!.
  - by rewrite length_fmap.
  - intros i raw Hi. by rewrite list_lookup_fmap, Hi.
  - intros i sel Hi. eexists. rewrite list_lookup_fmap, Hi. simpl.
    split_and!; [done|done|..]; cbn [Outbounds].
    + by rewrite appendUnique_spec, take_app_length.
    + intros R HR. by apply appendUnique_contains.
    + intros v. rewrite appendUnique_spec, elem_of_app, elem_of_first_seen.
      rewrite list_elem_of_filter. tauto.
Qed.

Section LoaderFacts.

Variable os_ReadFile : string → error + string.
Variable Unmarshal_SelectorsConfig : string → error + list RawMessage.
Variable json_Decode : RawMessage → error + json.

(** X13.  The outcome of [loadSelectors], case by case.  A file that
    cannot be read is an empty template if it does not exist and the
    read error otherwise.  A file whose content decodes gives one entry
    per element of its [outbounds] array, in the order of the file: the
    raw bytes for a type other than [selector], the decoded struct for
    a selector.  Any other content gives an error.  Entries and an
    error never come together. *)
Theorem loadSelectors_outcome (path : string) :
  match os_ReadFile path with
  | inl err =>
    loadSelectors os_ReadFile Unmarshal_SelectorsConfig json_Decode path
    = ([], if os_IsNotExist err then None else Some err)
  | inr data =>
    if template_decodes Unmarshal_SelectorsConfig json_Decode data
    then ∃ raws entries,
           Unmarshal_SelectorsConfig data = inr raws
           ∧ loadSelectors os_ReadFile Unmarshal_SelectorsConfig json_Decode
               path = (entries, None)
           ∧ length entries = length raws
           ∧ ∀ i raw, raws !! i = Some raw →
               entries !! i
               = Some (if decide ((Unmarshal_base json_Decode raw).1
                                  ≠ "selector")
                       then Raw raw
                       else Sel (Unmarshal_selector json_Decode raw).1)
    else ∃ err,
           loadSelectors os_ReadFile Unmarshal_SelectorsConfig json_Decode
             path = ([], Some err)
  end.
Proof.
  unfold loadSelectors, template_decodes.
  destruct (os_ReadFile path) as [err|data]; [by destruct (os_IsNotExist err)|].
  destruct (Unmarshal_SelectorsConfig data) as [err|raws]; [by eauto|].
  pose proof (load_entries_spec json_Decode raws []) as Hload.
  destruct (forallb (entry_decodes json_Decode) raws) eqn:Hall.
  - destruct (mapM (load_entry json_Decode) raws) as [es|] eqn:Hes.
    + exists raws, es. apply mapM_Some in Hes.
      split_and!; [done|done|symmetry; by eapply Forall2_length|].
      intros i raw Hi.
      destruct (Forall2_lookup_l _ _ _ _ _ Hes Hi) as (e & -> & He).
      f_equal. unfold load_entry in He.
      destruct (Unmarshal_base json_Decode raw) as [ty [err|]]; [done|].
      simpl. destruct (decide (ty ≠ "selector")); [congruence|].
      destruct (Unmarshal_selector json_Decode raw) as [sel [err|]];
        [done|]. simpl. congruence.
    + exfalso. apply mapM_None, Exists_exists in Hes as (raw & Hraw & Hnone).
      rewrite forallb_forall in Hall.
      apply list_elem_of_In, Hall, entry_decodes_load in Hraw.
      rewrite Hnone in Hraw. by destruct Hraw.
  - destruct (mapM (load_entry json_Decode) raws) as [es|] eqn:Hes; [|done].
    exfalso. apply mapM_Some in Hes.
    assert (forallb (entry_decodes json_Decode) raws = true) as Hall';
      [|congruence].
    apply forallb_forall. intros raw Hin%list_elem_of_In.
    apply entry_decodes_load.
    apply list_elem_of_lookup in Hin as [i Hi].
    destruct (Forall2_lookup_l _ _ _ _ _ Hes Hi) as (e & _ & ->). done.
Qed.

End LoaderFacts.

(** ** Publisher *)

Lemma length_app_bytes (s t : string) :
  String.length (s +:+ t) = (String.length s + String.length t)%nat.
Proof. induction s as [|c s IH]; [done|]. rewrite app_cons. simpl. by rewrite IH. Qed.

Lemma slice_from_app (s t : string) : slice_from (String.length s) (s +:+ t) = t.
Proof. induction s as [|c s IH]; [by destruct t|]. by rewrite app_cons. Qed.

(** [strings.HasSuffix] holds exactly of the strings that end with the
    suffix. *)
Lemma strings_HasSuffix_spec (s suffix : string) :
  strings_HasSuffix s suffix = true ↔ ∃ p, s = p +:+ suffix.
Proof.
  unfold strings_HasSuffix. rewrite andb_true_iff, !bool_decide_eq_true.
  split.
  - intros [_ Hsuf].
    exists (slice_to (String.length s - String.length suffix) s).
    set (n := (String.length s - String.length suffix)%nat) in *.
    trans (slice_to n s +:+ slice_from n s);
      [by rewrite slice_to_from|by rewrite Hsuf].
  - intros [p ->]. rewrite length_app_bytes. split; [lia|].
    replace (String.length p + String.length suffix - String.length suffix)%nat
      with (String.length p) by lia.
    apply slice_from_app.
Qed.

Section ExportFacts.

Variable world : Type.
Variable File : Type.
Variable os_ReadDir : world → string → error + list DirEntry.
Variable os_MkdirAll : world → string → world * option error.
Variable os_Open : world → string → world * (error + File).
Variable os_Create : world → string → world * (error + File).
Variable io_Copy : world → File → File → world * option error.
Variable os_Close : world → File → world.
Variable filepath_Join : string → string → string.

Local Abbreviation loop :=
  (export_loop world File os_Open os_Create io_Copy filepath_Join).
Local Abbreviation export :=
  (exportConfig world File os_ReadDir os_MkdirAll os_Open os_Create io_Copy
     os_Close filepath_Join).
Local Abbreviation to_publish := (publishable filepath_Join).

(** The loop logs the files to publish, in the order of the listing,
    up to the first failure. *)
Lemma export_loop_spec (srcDir dstDir : string) (entries : list DirEntry)
    (st : export_state world File) :
  ∃ logged,
    exported _ _ (loop srcDir dstDir st entries).1 = exported _ _ st ++ logged
    ∧ logged `prefix_of` to_publish srcDir dstDir entries
    ∧ ((loop srcDir dstDir st entries).2 = None →
       logged = to_publish srcDir dstDir entries).
Proof.
  revert st. induction entries as [|entry entries IH]; intros st.
  - exists []. by rewrite app_nil_r.
  - unfold publishable. cbn [export_loop].
    destruct (IsDir entry) eqn:Hdir.
    { rewrite filter_cons_False by (intros [? ?]; congruence). apply IH. }
    destruct (strings_HasSuffix (Name entry) ".scheme.json") eqn:Hsuf.
    { rewrite filter_cons_False by (intros [? ?]; congruence). apply IH. }
    rewrite filter_cons_True by done. rewrite fmap_cons.
    destruct (os_Open (fs _ _ st) _) as [w1 [err|srcFile]].
    { exists []. rewrite app_nil_r. split_and!; [done|apply prefix_nil|done]. }
    destruct (os_Create w1 _) as [w2 [err|dstFile]].
    { exists []. rewrite app_nil_r. split_and!; [done|apply prefix_nil|done]. }
    destruct (io_Copy w2 dstFile srcFile) as [w3 [err|]].
    { exists []. rewrite app_nil_r. split_and!; [done|apply prefix_nil|done]. }
    match goal with
    | |- context [loop srcDir dstDir ?st' entries] =>
      destruct (IH st') as (logged & Hlog & Hpre & Hall)
    end.
    eexists (_ :: logged). rewrite Hlog. cbn [exported].
    rewrite <- app_assoc. split_and!; [done| |].
    + by apply prefix_cons.
    + intros Hnone. f_equal. by apply Hall.
Qed.

(** X14.  What [exportConfig] publishes.  When the source directory
    cannot be listed or the destination cannot be made, nothing is
    copied.  Otherwise the files copied are the regular files of the
    listing whose names do not end in [.scheme.json], in the order of
    the listing, each to the destination path of the same name: all of
    them when the function returns no error, and those before the first
    failure when it returns one.  No directory and no template is ever
    copied, and no deferred close is left when the function returns. *)
Theorem exportConfig_publishes (w : world) (srcDir dstDir : string) :
  match os_ReadDir w srcDir with
  | inl err =>
    export w srcDir dstDir
    = ({| fs := w; deferred := []; exported := [] |}, Some err)
  | inr entries =>
    match os_MkdirAll w dstDir with
    | (w', Some err) =>
      export w srcDir dstDir
      = ({| fs := w'; deferred := []; exported := [] |}, Some err)
    | (_, None) =>
      exported _ _ (export w srcDir dstDir).1
        `prefix_of` to_publish srcDir dstDir entries
      ∧ ((export w srcDir dstDir).2 = None →
         exported _ _ (export w srcDir dstDir).1
         = to_publish srcDir dstDir entries)
      ∧ deferred _ _ (export w srcDir dstDir).1 = []
      ∧ ∀ src dst, (src, dst) ∈ exported _ _ (export w srcDir dstDir).1 →
          ∃ entry, entry ∈ entries
                   ∧ IsDir entry = false
                   ∧ (¬ ∃ p, Name entry = p +:+ ".scheme.json")
                   ∧ src = filepath_Join srcDir (Name entry)
                   ∧ dst = filepath_Join dstDir (Name entry)
    end
  end.
Proof.
  unfold exportConfig.
  destruct (os_ReadDir w srcDir) as [err|entries]; [done|].
  destruct (os_MkdirAll w dstDir) as [w' [err|]]; [done|].
  destruct (export_loop_spec srcDir dstDir entries
              {| fs := w'; deferred := []; exported := [] |})
    as (logged & Hlog & Hpre & Hall).
  destruct (loop srcDir dstDir _ entries) as [st err].
  cbn [fst snd exported deferred run_deferred app] in *. subst.
  split_and!; [done..|].
  intros src dst Hin.
  assert ((src, dst) ∈ to_publish srcDir dstDir entries) as Hpub.
  { destruct Hpre as [rest ->]. apply elem_of_app. by left. }
  unfold publishable in Hpub.
  apply list_elem_of_fmap in Hpub as (entry & [= -> ->] & Hentry).
  apply list_elem_of_filter in Hentry as [[Hdir Hsuf] Hentry].
  exists entry. split_and!; [done..| |done|done].
  rewrite <- strings_HasSuffix_spec. congruence.
Qed.

End ExportFacts.

(** ** Strings: decoding is stable under concatenation *)

Lemma utf8_first_range (b : Z) (sz : nat) (lo hi : Z) :
  utf8_first b = Some (sz, lo, hi) → 0x80 ≤ lo ∧ hi ≤ 0xBF.
Proof.
  unfold utf8_first. repeat case_match; intros [= <- <- <-]; lia.
Qed.

Lemma not_between_continuation (lo hi : Z) (c : ascii) :
  0x80 ≤ lo → hi ≤ 0xBF → continuation_byte c = false →
  between lo hi (byte_val c) = false.
Proof. unfold continuation_byte, between. lia. Qed.

(** What follows a string does not change how its first rune is read,
    unless it starts with a continuation byte. *)
Lemma DecodeRuneInString_app (s1 s2 : string) :
  s1 ≠ "" → starts_clean s2 →
  DecodeRuneInString (s1 +:+ s2) = DecodeRuneInString s1.
Proof.
  intros Hne Hclean. destruct s1 as [|c0 t0]; [done|]. rewrite app_cons.
  assert (∀ lo hi, 0x80 ≤ lo → hi ≤ 0xBF →
            match s2 with
            | String c _ => between lo hi (byte_val c) = false
            | "" => True
            end) as Hs2.
  { intros lo hi Hlo Hhi. destruct s2 as [|c s2]; [done|].
    by apply not_between_continuation. }
  unfold DecodeRuneInString.
  destruct (byte_val c0 <? 0x80); [done|].
  destruct (utf8_first (byte_val c0)) as [[[sz lo] hi]|] eqn:Hfirst; [|done].
  apply utf8_first_range in Hfirst as [Hlo Hhi].
  destruct t0 as [|c1 t1].
  { rewrite app_nil_l. specialize (Hs2 lo hi Hlo Hhi).
    destruct s2 as [|c s2]; [done|]. by rewrite Hs2. }
  rewrite app_cons.
  destruct (negb (between lo hi (byte_val c1))); [done|].
  destruct (sz <=? 2)%nat; [done|].
  destruct t1 as [|c2 t2].
  { rewrite app_nil_l. specialize (Hs2 0x80 0xBF ltac:(lia) ltac:(lia)).
    destruct s2 as [|c s2]; [done|]. by rewrite Hs2. }
  rewrite app_cons.
  destruct (negb (between 128 191 (byte_val c2))); [done|].
  destruct (sz <=? 3)%nat; [done|].
  destruct t2 as [|c3 t3].
  { rewrite app_nil_l. specialize (Hs2 0x80 0xBF ltac:(lia) ltac:(lia)).
    destruct s2 as [|c s2]; [done|]. by rewrite Hs2. }
  by rewrite app_cons.
Qed.

Lemma slice_to_app (n : nat) (s t : string) :
  (n ≤ String.length s)%nat → slice_to n (s +:+ t) = slice_to n s.
Proof.
  revert s. induction n as [|n IH]; intros [|c s] Hn; simpl in *;
    try done; try lia.
  rewrite IH; [done|lia].
Qed.

Lemma slice_from_app_le (n : nat) (s t : string) :
  (n ≤ String.length s)%nat → slice_from n (s +:+ t) = slice_from n s +:+ t.
Proof.
  revert s. induction n as [|n IH]; intros [|c s] Hn; simpl in *;
    try done; try lia.
  apply IH. lia.
Qed.

(** More fuel than the length changes nothing. *)
Lemma range_go_fuel (fuel : nat) (s : string) :
  (String.length s ≤ fuel)%nat → range_go fuel s = range s.
Proof.
  unfold range. remember (String.length s) as n eqn:Hn.
  revert s fuel Hn. induction n as [n IH] using lt_wf_ind.
  intros s fuel -> Hfuel. destruct s as [|c t]; [by destruct fuel|].
  destruct fuel as [|fuel]; [simpl in Hfuel; lia|].
  cbn [String.length range_go].
  pose proof (DecodeRuneInString_size (String c t) ltac:(done)) as Hsz.
  destruct (DecodeRuneInString (String c t)) as [r size]. cbn [snd] in Hsz.
  f_equal.
  assert (String.length (slice_from size (String c t)) < String.length (String c t))%nat
    as Hshort by (rewrite length_slice_from; simpl in *; lia).
  rewrite (IH _ Hshort _ fuel eq_refl) by (simpl in *; lia).
  rewrite (IH _ Hshort _ (String.length t) eq_refl) by (simpl in *; lia).
  done.
Qed.

(** The runes of a string, one step at a time. *)
Lemma range_cons (s : string) :
  s ≠ "" →
  range s = ((DecodeRuneInString s).1, slice_to (DecodeRuneInString s).2 s)
            :: range (slice_from (DecodeRuneInString s).2 s).
Proof.
  intros Hne. destruct s as [|c t]; [done|].
  pose proof (DecodeRuneInString_size (String c t) ltac:(done)) as Hsz.
  unfold range at 1. cbn [String.length range_go].
  destruct (DecodeRuneInString (String c t)) as [r size]. cbn [fst snd] in *.
  f_equal. apply range_go_fuel. rewrite length_slice_from. simpl. lia.
Qed.

(** The runes of a concatenation are the runes of the parts, when the
    second part does not start with a continuation byte. *)
Lemma range_app (s1 s2 : string) :
  starts_clean s2 → range (s1 +:+ s2) = range s1 ++ range s2.
Proof.
  intros Hclean. remember (String.length s1) as n eqn:Hn.
  revert s1 Hn. induction n as [n IH] using lt_wf_ind. intros s1 ->.
  destruct (decide (s1 = "")) as [->|Hne]; [done|].
  assert (s1 +:+ s2 ≠ "") as Hne' by (by destruct s1).
  rewrite (range_cons _ Hne'), (range_cons _ Hne).
  rewrite DecodeRuneInString_app by done.
  pose proof (DecodeRuneInString_size s1 Hne) as Hsz.
  destruct (DecodeRuneInString s1) as [r size]. cbn [fst snd] in *.
  rewrite slice_to_app, slice_from_app_le by lia.
  rewrite <- app_comm_cons. f_equal.
  apply (IH (String.length (slice_from size s1))); [|done].
  rewrite length_slice_from. destruct s1; [done|simpl; lia].
Qed.

(** ** Strings: the pieces a string is read in *)

(** A rune that is not [RuneError] was read from a leading byte. *)
Lemma DecodeRuneInString_clean (s : string) :
  (DecodeRuneInString s).1 ≠ RuneError → starts_clean s.
Proof.
  destruct s as [|c0 t0]; [done|]. unfold DecodeRuneInString, starts_clean.
  unfold continuation_byte, between.
  destruct (byte_val c0 <? 0x80) eqn:Hascii; [lia|].
  destruct (utf8_first (byte_val c0)) as [[[sz lo] hi]|] eqn:Hfirst; [|done].
  intros _. unfold utf8_first in Hfirst.
  repeat case_match; try discriminate; lia.
Qed.

(** The bytes of the first rune, read on their own, give that rune. *)
Lemma DecodeRuneInString_slice (s : string) :
  DecodeRuneInString (slice_to (DecodeRuneInString s).2 s)
  = DecodeRuneInString s.
Proof.
  destruct s as [|c0 t0]; [done|]. unfold DecodeRuneInString at 2. cbv zeta.
  destruct (byte_val c0 <? 0x80) eqn:Hascii; [decode_branch|].
  destruct (utf8_first (byte_val c0)) as [[[sz lo] hi]|] eqn:Hfirst;
    [|decode_branch].
  destruct t0 as [|c1 t1]; [decode_branch|].
  destruct (negb (between lo hi (byte_val c1))) eqn:H1; [decode_branch|].
  destruct (sz <=? 2)%nat eqn:Hsz2; [decode_branch|].
  destruct t1 as [|c2 t2]; [decode_branch|].
  destruct (negb (between 128 191 (byte_val c2))) eqn:H2; [decode_branch|].
  destruct (sz <=? 3)%nat eqn:Hsz3; [decode_branch|].
  destruct t2 as [|c3 t3]; [decode_branch|].
  destruct (negb (between 128 191 (byte_val c3))) eqn:H3; decode_branch.
Qed.

Lemma length_slice_to (n : nat) (s : string) :
  (n ≤ String.length s)%nat → String.length (slice_to n s) = n.
Proof.
  revert s. induction n as [|n IH]; intros [|c s] Hn; simpl in *;
    try done; try lia.
  rewrite IH; lia.
Qed.

Lemma slice_to_all (s : string) : slice_to (String.length s) s = s.
Proof. induction s as [|c s IH]; simpl; [done|by rewrite IH]. Qed.

Lemma slice_from_all (s : string) : slice_from (String.length s) s = "".
Proof. induction s as [|c s IH]; simpl; [done|by rewrite IH]. Qed.

Lemma range_nil (s : string) : range s = [] → s = "".
Proof.
  intros H. destruct (decide (s = "")) as [|Hne]; [done|].
  by rewrite (range_cons _ Hne) in H.
Qed.

(** What the first piece of a string tells about the string. *)
Lemma range_cons_inv (s : string) (r : Z) (bs : string)
    (rest : list (Z * string)) :
  range s = (r, bs) :: rest →
  s = bs +:+ concat_bytes rest.*2
  ∧ range (concat_bytes rest.*2) = rest
  ∧ range bs = [(r, bs)]
  ∧ bs ≠ ""
  ∧ (r ≠ RuneError → starts_clean bs).
Proof.
  intros Hrange.
  assert (s ≠ "") as Hne by (by intros ->).
  rewrite (range_cons _ Hne) in Hrange.
  pose proof (DecodeRuneInString_size s Hne) as Hsz.
  pose proof (DecodeRuneInString_slice s) as Hslice.
  pose proof (DecodeRuneInString_clean s) as Hclean.
  destruct (DecodeRuneInString s) as [r' size]. cbn [fst snd] in *.
  injection Hrange as -> <- <-.
  rewrite range_bytes.
  assert (slice_to size s ≠ "") as Hbs.
  { intros Hbs. apply (f_equal String.length) in Hbs.
    rewrite length_slice_to in Hbs by lia. simpl in Hbs. lia. }
  split_and!.
  - by rewrite slice_to_from.
  - done.
  - rewrite (range_cons _ Hbs), Hslice. cbn [fst snd].
    replace size with (String.length (slice_to size s)) at 1 3
      by (apply length_slice_to; lia).
    by rewrite slice_to_all, slice_from_all.
  - done.
  - intros Hr. specialize (Hclean Hr). destruct s as [|c t]; [done|].
    destruct size; [lia|]. done.
Qed.

(** The pieces after any point are the pieces of the rest of the
    string. *)
Lemma range_suffix (s : string) (l1 l2 : list (Z * string)) :
  range s = l1 ++ l2 → range (concat_bytes l2.*2) = l2.
Proof.
  revert s. induction l1 as [|[r bs] l1 IH]; intros s Hrange.
  - cbn [app] in Hrange. by rewrite <- Hrange, range_bytes.
  - rewrite <- app_comm_cons in Hrange.
    apply range_cons_inv in Hrange as (_ & Hrest & _). by eapply IH.
Qed.

Lemma range_elem (s : string) (p : Z * string) :
  p ∈ range s →
  range p.2 = [p] ∧ p.2 ≠ "" ∧ (p.1 ≠ RuneError → starts_clean p.2).
Proof.
  intros (l1 & l2 & Hrange)%list_elem_of_split.
  apply range_suffix in Hrange. destruct p as [r bs].
  apply range_cons_inv in Hrange as (_ & _ & ? & ? & ?). done.
Qed.

Lemma concat_bytes_app (l1 l2 : list string) :
  concat_bytes (l1 ++ l2) = concat_bytes l1 +:+ concat_bytes l2.
Proof.
  induction l1 as [|s l1 IH]; [done|]. cbn [app concat_bytes foldr].
  fold (concat_bytes (l1 ++ l2)). fold (concat_bytes l1).
  by rewrite IH, app_assoc_bytes.
Qed.

Lemma starts_clean_app (s t : string) :
  s ≠ "" → starts_clean s → starts_clean (s +:+ t).
Proof. by destruct s. Qed.

Lemma IsSpace_not_RuneError (r : Z) : IsSpace r = true → r ≠ RuneError.
Proof. by intros H ->. Qed.

(** The pieces of a stretch of a string are the pieces of that stretch
    read on its own, when the stretch ends the string or a valid rune
    follows it. *)
Lemma range_middle (s : string) (l1 l2 l3 : list (Z * string)) :
  range s = l1 ++ l2 ++ l3 →
  match l3 with [] => True | p :: _ => p.1 ≠ RuneError end →
  range (concat_bytes l2.*2) = l2.
Proof.
  intros Hrange Hl3.
  apply range_suffix in Hrange as H23.
  rewrite app_assoc in Hrange. apply range_suffix in Hrange as H3.
  rewrite fmap_app, concat_bytes_app, range_app, H3 in H23.
  - by apply app_inv_tail in H23.
  - destruct l3 as [|[r bs] l3]; [done|].
    apply range_cons_inv in H3 as (_ & _ & _ & Hne & Hclean).
    cbn [fmap list_fmap concat_bytes foldr snd].
    apply starts_clean_app; [done|]. by apply Hclean.
Qed.

(** ** Strings: [TrimSpace] *)

Lemma trim_left_lead (l : list (Z * string)) :
  ∃ lead, l = lead ++ trim_left l ∧ all_space lead.
Proof.
  induction l as [|[r bs] l (lead & IH & Hlead)].
  - exists []. split; [done|constructor].
  - cbn [trim_left]. destruct (IsSpace r) eqn:Hr.
    + exists ((r, bs) :: lead). split; [by rewrite <- app_comm_cons, <- IH|].
      by constructor.
    + exists []. split; [done|constructor].
Qed.

Lemma trim_left_head (l : list (Z * string)) :
  match trim_left l with [] => True | p :: _ => IsSpace p.1 = false end.
Proof.
  induction l as [|[r bs] l IH]; [done|]. cbn [trim_left].
  by destruct (IsSpace r) eqn:Hr.
Qed.

Lemma trim_left_fixed (l : list (Z * string)) :
  match l with [] => True | p :: _ => IsSpace p.1 = false end →
  trim_left l = l.
Proof. destruct l as [|[r bs] l]; [done|]. simpl. by intros ->. Qed.

Lemma trim_both_spec (l : list (Z * string)) :
  ∃ lead trail,
    l = lead ++ trim_both l ++ trail ∧ all_space lead ∧ all_space trail
    ∧ trim_left (trim_both l) = trim_both l
    ∧ trim_left (reverse (trim_both l)) = reverse (trim_both l).
Proof.
  unfold trim_both.
  destruct (trim_left_lead l) as (lead & Hl & Hlead).
  pose proof (trim_left_head l) as Hhead.
  set (m := trim_left l) in *.
  destruct (trim_left_lead (reverse m)) as (lead' & Hm & Hlead').
  pose proof (trim_left_head (reverse m)) as Hhead'.
  set (m' := trim_left (reverse m)) in *.
  assert (m = reverse m' ++ reverse lead') as Hm2.
  { by rewrite <- reverse_app, <- Hm, reverse_involutive. }
  exists lead, (reverse lead'). split_and!.
  - by rewrite <- Hm2.
  - done.
  - by apply Forall_reverse.
  - apply trim_left_fixed. rewrite Hm2 in Hhead.
    destruct (reverse m') as [|p t]; [done|]. done.
  - rewrite reverse_involutive. by apply trim_left_fixed.
Qed.

Lemma trim_both_fixed (l : list (Z * string)) :
  trim_left l = l → trim_left (reverse l) = reverse l → trim_both l = l.
Proof.
  intros H1 H2. unfold trim_both. by rewrite H1, H2, reverse_involutive.
Qed.

Lemma TrimSpace_trim_both (s : string) :
  TrimSpace s = concat_bytes (trim_both (range s)).*2.
Proof. done. Qed.

(** The pieces of a trimmed string are the pieces [TrimSpace] kept. *)
Lemma range_TrimSpace (s : string) :
  range (TrimSpace s) = trim_both (range s).
Proof.
  rewrite TrimSpace_trim_both.
  destruct (trim_both_spec (range s)) as (lead & trail & Hrange & _ & Htrail & _).
  apply (range_middle s lead _ trail Hrange).
  destruct Htrail as [|p trail Hp _]; [done|].
  by apply IsSpace_not_RuneError.
Qed.

Lemma TrimSpace_idempotent (s : string) : TrimSpace (TrimSpace s) = TrimSpace s.
Proof.
  rewrite (TrimSpace_trim_both (TrimSpace s)), range_TrimSpace.
  destruct (trim_both_spec (range s)) as (_ & _ & _ & _ & _ & H1 & H2).
  by rewrite trim_both_fixed.
Qed.

Lemma runes_TrimSpace (s : string) :
  ∃ lead trail, runes s = lead ++ runes (TrimSpace s) ++ trail
    ∧ Forall (λ r, IsSpace r = true) lead
    ∧ Forall (λ r, IsSpace r = true) trail.
Proof.
  unfold runes. rewrite range_TrimSpace.
  destruct (trim_both_spec (range s)) as (lead & trail & Hrange & Hlead & Htrail & _).
  exists lead.*1, trail.*1. split_and!.
  - by rewrite Hrange at 1; rewrite !fmap_app.
  - by apply Forall_fmap.
  - by apply Forall_fmap.
Qed.

(** ** Strings: [strings.Map] with a mapping that only drops runes *)

Lemma starts_clean_pieces (l : list (Z * string)) :
  Forall (λ p, p.2 ≠ "" ∧ starts_clean p.2) l →
  starts_clean (concat_bytes l.*2).
Proof.
  intros [|[r bs] l' [Hne Hclean] _]; [done|].
  cbn [fmap list_fmap concat_bytes foldr snd]. by apply starts_clean_app.
Qed.

(** Pieces that each read as themselves, and each start with a leading
    byte, read as themselves when put together. *)
Lemma range_pieces (l : list (Z * string)) :
  Forall (λ p, range p.2 = [p] ∧ p.2 ≠ "" ∧ starts_clean p.2) l →
  range (concat_bytes l.*2) = l.
Proof.
  induction 1 as [|[r bs] l (Hrange & Hne & Hclean) Hl IH]; [done|].
  cbn [fmap list_fmap concat_bytes foldr snd]. fold (concat_bytes l.*2).
  cbn [snd] in Hrange. rewrite range_app, IH; [by rewrite Hrange|].
  apply starts_clean_pieces. eapply Forall_impl; [exact Hl|]. by intros p (_ & ? & ?).
Qed.

Lemma EncodeKept_piece (s : string) (p : Z * string) :
  p ∈ range s →
  range (EncodeKept p.1 p.2) = [(p.1, EncodeKept p.1 p.2)]
  ∧ EncodeKept p.1 p.2 ≠ "" ∧ starts_clean (EncodeKept p.1 p.2).
Proof.
  intros Hp. apply range_elem in Hp as (Hrange & Hne & Hclean).
  destruct p as [r bs]. cbn [fst snd] in *.
  unfold EncodeKept. destruct (r =? RuneError) eqn:Hr.
  - apply Z.eqb_eq in Hr as ->. split_and!; done.
  - apply Z.eqb_neq in Hr. auto.
Qed.

Lemma EncodeKept_idempotent (r : Z) (bs : string) :
  EncodeKept r (EncodeKept r bs) = EncodeKept r bs.
Proof. unfold EncodeKept. by destruct (r =? RuneError). Qed.

Lemma MapDrop_kept (dropped : Z → bool) (l : list (Z * string)) :
  concat_bytes ((λ p, if dropped p.1 then "" else EncodeKept p.1 p.2) <$> l)
  = concat_bytes ((λ p, (p.1, EncodeKept p.1 p.2))
                    <$> filter (λ p, dropped p.1 = false) l).*2.
Proof.
  induction l as [|[r bs] l IH]; [done|].
  rewrite fmap_cons. cbn [concat_bytes foldr fst snd].
  fold (concat_bytes ((λ p, if dropped p.1 then "" else EncodeKept p.1 p.2) <$> l)).
  rewrite IH. destruct (dropped r) eqn:Hr.
  - rewrite filter_cons_False by (simpl; congruence). done.
  - rewrite filter_cons_True by done. done.
Qed.

(** The pieces of a mapped string: the pieces that were kept, an
    invalid byte written as U+FFFD. *)
Lemma range_MapDrop (dropped : Z → bool) (s : string) :
  range (MapDrop dropped s)
  = (λ p, (p.1, EncodeKept p.1 p.2))
      <$> filter (λ p, dropped p.1 = false) (range s).
Proof.
  unfold MapDrop. rewrite MapDrop_kept. apply range_pieces.
  apply Forall_fmap, Forall_forall. intros p [_ Hp]%list_elem_of_filter.
  by apply (EncodeKept_piece s).
Qed.

Lemma MapDrop_idempotent (dropped : Z → bool) (s : string) :
  MapDrop dropped (MapDrop dropped s) = MapDrop dropped s.
Proof.
  unfold MapDrop at 1. rewrite MapDrop_kept, range_MapDrop.
  unfold MapDrop. rewrite MapDrop_kept. f_equal. f_equal.
  induction (range s) as [|[r bs] l IH]; [done|].
  destruct (dropped r) eqn:Hr.
  - rewrite filter_cons_False by (simpl; congruence). done.
  - rewrite filter_cons_True by done. rewrite !fmap_cons. cbn [fst snd].
    rewrite filter_cons_True by done. rewrite fmap_cons. cbn [fst snd].
    by rewrite EncodeKept_idempotent, IH.
Qed.

Lemma runes_MapDrop (dropped : Z → bool) (s : string) :
  runes (MapDrop dropped s) = filter (λ r, dropped r = false) (runes s).
Proof.
  unfold runes. rewrite range_MapDrop.
  induction (range s) as [|[r bs] l IH]; [done|].
  rewrite fmap_cons. cbn [fst]. destruct (dropped r) eqn:Hr.
  - rewrite !filter_cons_False by (simpl; congruence). done.
  - rewrite !filter_cons_True by done. rewrite !fmap_cons. cbn [fst].
    by rewrite IH.
Qed.

Lemma MapDrop_nothing_to_drop (dropped : Z → bool) (s : string) :
  Forall (λ r, dropped r = false ∧ r ≠ RuneError) (runes s) →
  MapDrop dropped s = s.
Proof.
  unfold runes, MapDrop. intros Hall. rewrite <- (range_bytes s) at 2.
  f_equal. induction (range s) as [|[r bs] l IH]; [done|].
  rewrite fmap_cons in Hall. apply Forall_cons in Hall as [[Hr Hne] Hall].
  rewrite !fmap_cons. cbn [fst snd] in *. rewrite Hr, IH by done.
  unfold EncodeKept. by apply Z.eqb_neq in Hne as ->.
Qed.

(** ** Strings: [Fields] and [Join] *)

(** A run of runes that are not white space goes into the field being
    read. *)
Lemma fields_go_run (cur : option string) (l rs : list (Z * string)) :
  no_space l →
  fields_go cur (l ++ rs)
  = fields_go (match l with
               | [] => cur
               | _ => Some (default "" cur +:+ concat_bytes l.*2)
               end) rs.
Proof.
  intros Hl. revert cur. induction Hl as [|[r bs] l Hr Hl IH]; intros cur.
  - done.
  - cbn [app fields_go]. cbn [fst] in Hr. rewrite Hr, IH.
    cbn [fmap list_fmap concat_bytes foldr snd]. fold (concat_bytes l.*2).
    destruct l as [|q l].
    + cbn [fmap list_fmap concat_bytes foldr]. rewrite app_empty_r.
      by destruct cur.
    + destruct cur as [f|]; cbn [from_option default]; unfold id;
        by rewrite ?app_assoc_bytes, ?app_nil_l.
Qed.

Lemma range_space (s : string) : range (" " +:+ s) = (32, " ") :: range s.
Proof. by rewrite range_cons. Qed.

Lemma token_range (t : string) : token t → range t ≠ [].
Proof. intros [Hne _] Hnil. by apply range_nil in Hnil. Qed.

Lemma Fields_token (t : string) : token t → Fields t = [t].
Proof.
  intros Ht. pose proof (token_range t Ht) as Hne. destruct Ht as [_ Hns].
  unfold Fields. rewrite <- (app_nil_r (range t)), fields_go_run by done.
  destruct (range t) eqn:Hrange; [done|]. rewrite <- Hrange, range_bytes.
  done.
Qed.

Lemma Fields_token_space (t rest : string) :
  token t → Fields (t +:+ " " +:+ rest) = t :: Fields rest.
Proof.
  intros Ht. pose proof (token_range t Ht) as Hne. destruct Ht as [_ Hns].
  unfold Fields. rewrite range_app by done.
  rewrite range_space, fields_go_run by done.
  destruct (range t) eqn:Hrange; [done|]. rewrite <- Hrange, range_bytes.
  done.
Qed.

(** Joining tokens with a space and splitting again gives the tokens
    back. *)
Lemma Fields_Join (toks : list string) :
  Forall token toks → Fields (Join toks " ") = toks.
Proof.
  induction 1 as [|t toks Ht Htoks IH]; [done|].
  destruct toks as [|t' toks].
  - by apply Fields_token.
  - change (Join (t :: t' :: toks) " ")
      with (t +:+ " " +:+ Join (t' :: toks) " ").
    by rewrite Fields_token_space, IH.
Qed.

(** Where a piece between white space lies in the string. *)
Lemma pieces_decompose (rs : list (Z * string)) (i : nat)
    (p : list (Z * string)) :
  Tokens.pieces rs !! i = Some p →
  ∃ before after,
    rs = before ++ p ++ after ∧ no_space p
    ∧ match after with [] => True | q :: _ => IsSpace q.1 = true end
    ∧ (i = 0%nat → before = []).
Proof.
  revert i p. induction rs as [|[r bs] rs IH]; intros i p Hp.
  - destruct i; [|done]. injection Hp as <-. exists [], [].
    split_and!; [done|constructor|done|done].
  - cbn [Tokens.pieces] in Hp. destruct (IsSpace r) eqn:Hr.
    + destruct i as [|i].
      * injection Hp as <-. exists [], ((r, bs) :: rs).
        split_and!; [done|constructor|done|done].
      * apply IH in Hp as (before & after & -> & Hns & Hafter & _).
        exists ((r, bs) :: before), after. split_and!; done.
    + destruct (pieces_cons rs) as (p0 & ps & Hps). rewrite Hps in Hp.
      destruct i as [|i].
      * injection Hp as <-.
        destruct (IH 0%nat p0) as (before & after & Hrs & Hns & Hafter & Hb);
          [by rewrite Hps|].
        rewrite (Hb eq_refl) in Hrs. exists [], after.
        split_and!; [by rewrite Hrs|by constructor|done|done].
      * destruct (IH (S i) p) as (before & after & -> & Hns & Hafter & _);
          [by rewrite Hps|].
        exists ((r, bs) :: before), after. split_and!; done.
Qed.

(** What [Fields] gives are tokens. *)
Lemma Fields_tokens (s : string) : Forall token (Fields s).
Proof.
  rewrite Fields_split_on_white_space. unfold Tokens.split_on_white_space.
  apply Forall_fmap, Forall_forall. intros p [Hne Hp]%list_elem_of_filter.
  apply list_elem_of_lookup in Hp as [i Hp].
  apply pieces_decompose in Hp as (before & after & Hrange & Hns & Hafter & _).
  assert (range (Tokens.bytes_of p) = p) as Hp.
  { apply (range_middle s before p after Hrange).
    destruct after as [|q after]; [done|]. by apply IsSpace_not_RuneError. }
  split.
  - intros Hempty. rewrite Hempty in Hp. by rewrite <- Hp in Hne.
  - by rewrite Hp.
Qed.

Lemma Fields_Join_Fields (s : string) : Fields (Join (Fields s) " ") = Fields s.
Proof. apply Fields_Join, Fields_tokens. Qed.

(** X16.  The region key of a label of two or more tokens is made of the
    label's tokens without the last one: splitting the key at white space
    gives exactly these tokens, whatever white space the label had
    between or around them; in particular the key is not empty. *)
Theorem region_key_tokens (tag : string) :
  (1 < length (Fields tag))%nat →
  Fields (extractRegion tag) = take (length (Fields tag) - 1) (Fields tag)
  ∧ extractRegion tag ≠ "".
Proof.
  intros Hlen. unfold extractRegion. rewrite decide_False by lia.
  assert (Fields (Join (take (length (Fields tag) - 1) (Fields tag)) " ")
          = take (length (Fields tag) - 1) (Fields tag)) as Hfields.
  { apply Fields_Join, Forall_take, Fields_tokens. }
  split; [done|]. intros Hempty. rewrite Hempty in Hfields.
  apply (f_equal length) in Hfields. rewrite length_take in Hfields.
  simpl in Hfields. lia.
Qed.

Lemma region_key_tokens_witness :
  (1 < length (Fields "JP  Tokyo 01"))%nat
  ∧ Fields (extractRegion "JP  Tokyo 01") = ["JP"; "Tokyo"]
  ∧ extractRegion "JP  Tokyo 01" ≠ "".
Proof.
  assert (1 < length (Fields "JP  Tokyo 01"))%nat as Hlen
    by (vm_compute; lia).
  split; [exact Hlen|]. exact (region_key_tokens "JP  Tokyo 01" Hlen).
Defined.

(** ** The label of a parsed line *)

Section LabelFacts.

Variable url_Parse : string → error + URL.
Variable unicode_So : Z → bool.

(** X15.  [removeEmoji] removes exactly the runes of the class So and
    keeps the others in order, an invalid byte counting as the rune
    U+FFFD; removing twice is removing once; and a string of valid
    UTF-8 without such runes comes back byte for byte. *)
Theorem removeEmoji_runes (s : string) :
  runes (removeEmoji unicode_So s)
  = filter (λ r, unicode_So r = false) (runes s)
  ∧ removeEmoji unicode_So (removeEmoji unicode_So s) = removeEmoji unicode_So s
  ∧ (Forall (λ r, unicode_So r = false ∧ r ≠ RuneError) (runes s) →
     removeEmoji unicode_So s = s).
Proof.
  unfold removeEmoji. split_and!.
  - apply runes_MapDrop.
  - apply MapDrop_idempotent.
  - apply MapDrop_nothing_to_drop.
Qed.

(** X17.  A line that [parseTrojanURL] turns into a record gives no
    error, and the record is of type trojan with TLS enabled, a port
    between 0 and the largest [int], and a label that has no white space
    at either end and no rune of the class So. *)
Theorem parseTrojanURL_record (raw : string) (ob : TrojanOutbound)
    (e : option error) :
  parseTrojanURL url_Parse unicode_So raw = (Some ob, e) →
  e = None
  ∧ Type_ (Base ob) = "trojan"
  ∧ Enabled (TLS ob) = true
  ∧ 0 ≤ ServerPort ob ≤ 2 ^ 63 - 1
  ∧ TrimSpace (TagOf ob) = TagOf ob
  ∧ Forall (λ r, unicode_So r = false) (runes (TagOf ob)).
Proof.
  unfold parseTrojanURL. destruct (url_Parse (TrimSpace raw)) as [err|u]; [done|].
  destruct (decide (Scheme u ≠ "trojan")); [done|].
  destruct (decide (Url.Port u = "")) as [|Hport]; [done|].
  destruct (Atoi_all_digits (Url.Port u) Hport (Port_all_digits u))
    as (port & _ & Hn & ->).
  destruct (2 ^ 63 - 1 <? port) eqn:Hbig; [done|]. apply Z.ltb_ge in Hbig.
  intros [= <- <-]. unfold TagOf. cbn [Base Tag Type_ TLS Enabled ServerPort].
  split_and!; try done.
  - apply TrimSpace_idempotent.
  - destruct (runes_TrimSpace (removeEmoji unicode_So (TrimSpace (Fragment u))))
      as (lead & trail & Hrunes & _).
    unfold removeEmoji in *. rewrite runes_MapDrop in Hrunes.
    assert (Forall (λ r, unicode_So r = false)
              (filter (λ r, unicode_So r = false)
                 (runes (TrimSpace (Fragment u))))) as Hall.
    { apply Forall_forall. by intros r [? _]%list_elem_of_filter. }
    rewrite Hrunes in Hall.
    by apply Forall_app in Hall as [_ [? _]%Forall_app].
Qed.

(** X18.  White space around a line is of no account: [parseTrojanURL]
    gives the same on a line and on the trimmed line, and the loop over
    the lines gives the same registry when the lines are trimmed
    beforehand. *)
Theorem surrounding_space_ignored (raw : string) (st : Registry.state)
    (lines : list string) :
  parseTrojanURL url_Parse unicode_So (TrimSpace raw)
  = parseTrojanURL url_Parse unicode_So raw
  ∧ read_lines url_Parse unicode_So st (TrimSpace <$> lines)
    = read_lines url_Parse unicode_So st lines.
Proof.
  split.
  - unfold parseTrojanURL. by rewrite TrimSpace_idempotent.
  - revert st. induction lines as [|line lines IH]; intros st; [done|].
    rewrite fmap_cons. cbn [read_lines]. rewrite TrimSpace_idempotent.
    destruct (decide (TrimSpace line = "")); [apply IH|].
    destruct (parseTrojanURL url_Parse unicode_So (TrimSpace line))
      as [[ob|] [err|]]; try apply IH.
    destruct (Registry.step st ob); [apply IH|done].
Qed.

End LabelFacts.

Lemma parseTrojanURL_record_witness :
  ∃ ob, parseTrojanURL sample_url_Parse sample_So
          "  trojan://p@1.2.3.4:443?sni=a#SG%2001 " = (Some ob, None)
    ∧ Type_ (Base ob) = "trojan"
    ∧ 0 ≤ ServerPort ob ≤ 2 ^ 63 - 1
    ∧ TrimSpace (TagOf ob) = TagOf ob.
Proof.
  assert (∃ ob, parseTrojanURL sample_url_Parse sample_So
                  "  trojan://p@1.2.3.4:443?sni=a#SG%2001 " = (Some ob, None))
    as [ob Hob] by (eexists; vm_compute; reflexivity).
  exists ob. split; [exact Hob|].
  destruct (parseTrojanURL_record sample_url_Parse sample_So _ ob None Hob)
    as (_ & Htype & _ & Hport & Htag & _).
  split; [exact Htype|split; [exact Hport|exact Htag]].
Defined.

(** ** What the region keys given to the template refer to *)

Lemma pipeline_regionOrder (visit : list string)
    (outbounds : list TrojanOutbound) :
  regionOrder (pipeline visit outbounds)
  = first_seen (region_of <$> outbounds).
Proof.
  unfold pipeline.
  destruct (Classifier.classify outbounds) as [[rt ri] ro] eqn:Hcl.
  destruct (classify_inv outbounds _ _ _ Hcl) as (Hro & _).
  by destruct (Collapse.run visit (outbounds, rt)).
Qed.

(** The groups of a run, whatever the order of the range over the map:
    the two groups of every region with more than one member, over the
    labels the registry gave. *)
Lemma elem_of_pipeline_groups (visit : list string)
    (outbounds : list TrojanOutbound) (g : GroupOutbound) :
  g ∈ groups (pipeline visit outbounds) ↔
  ∃ R, R ∈ first_seen (region_of <$> outbounds)
       ∧ (1 < length (members outbounds R))%nat
       ∧ (g = Synth.urltest R (members outbounds R)
          ∨ g = Synth.selector R (members outbounds R)).
Proof.
  unfold pipeline.
  destruct (Classifier.classify outbounds) as [[rt ri] ro] eqn:Hcl.
  destruct (classify_inv outbounds _ _ _ Hcl) as (Hro & _ & Hrt & _).
  pose proof (collapse_run_length visit (outbounds, rt)) as Hlen.
  pose proof (collapse_run_lookup visit (outbounds, rt)) as Hsame.
  destruct (Collapse.run visit (outbounds, rt)) as [obs' rt'].
  cbn [servers groups fst snd] in *.
  assert (∀ R, (1 < length (default [] (rt' !! R)))%nat
               ∨ (1 < length (members outbounds R))%nat →
               default [] (rt' !! R) = members outbounds R) as Htags.
  { intros R Hmany. rewrite <- Hrt. f_equal. apply Hsame. intros x Hx.
    specialize (Hlen R). rewrite <- Hrt in Hmany. rewrite Hx in Hlen.
    rewrite Hlen, Hx in Hmany. simpl in Hmany. lia. }
  rewrite elem_of_synth_run, <- Hro. split.
  - intros (R & HR & Hmany & Hg). exists R.
    pose proof (Htags R (or_introl Hmany)) as Heq.
    rewrite Heq in Hmany, Hg. done.
  - intros (R & HR & Hmany & Hg). exists R.
    pose proof (Htags R (or_intror Hmany)) as Heq.
    rewrite Heq. done.
Qed.

(** X19.  What a region key refers to.  When no key of a one-member
    region is the label of another record, every key of [regionOrder],
    the keys that the merge appends to the template's selectors, names
    something the run emits: the record of the region, relabelled with
    the key, when the region has one member, and the region's selector
    group when it has more. *)
Theorem region_names_resolve (visit : list string)
    (outbounds : list TrojanOutbound) (R : string) :
  no_label_collision outbounds →
  Collapse.visit_order visit (Classifier.classify outbounds).1.1 →
  R ∈ regionOrder (pipeline visit outbounds) →
  (length (members outbounds R) = 1%nat
   ∧ ∃ ob, ob ∈ servers (pipeline visit outbounds) ∧ TagOf ob = R)
  ∨ ((1 < length (members outbounds R))%nat
     ∧ ∃ g, g ∈ groups (pipeline visit outbounds)
            ∧ Type_ (SelBase (Selector g)) = "selector"
            ∧ Tag (SelBase (Selector g)) = R).
Proof.
  intros Hfree Hvisit HR. rewrite pipeline_regionOrder in HR.
  pose proof HR as HR'.
  apply elem_of_first_seen, list_elem_of_fmap in HR' as (ob & -> & Hob).
  pose proof (elem_of_members outbounds ob Hob) as Hmem.
  destruct (decide (length (members outbounds (region_of ob)) = 1%nat))
    as [Hone|Hmany].
  - left. split; [done|].
    destruct (pipeline_collapsed visit outbounds Hfree Hvisit) as [-> _].
    exists (set_Tag ob (region_of ob)). split; [|by destruct ob as [[? ?]]].
    apply list_elem_of_fmap. exists ob. by rewrite decide_True.
  - right.
    assert (1 < length (members outbounds (region_of ob)))%nat as Hlen.
    { destruct (members outbounds (region_of ob)) as [|? [|? ?]];
        [by apply elem_of_nil in Hmem|done|simpl; lia]. }
    split; [done|].
    exists (Synth.selector (region_of ob) (members outbounds (region_of ob))).
    split; [|done]. apply elem_of_pipeline_groups. eauto.
Qed.

Lemma region_names_resolve_witness :
  (length (members [endpoint "JP 01" "a.example" 443;
                    endpoint "JP 02" "b.example" 443;
                    endpoint "US 01" "c.example" 443] "US") = 1%nat
   ∧ ∃ ob, ob ∈ servers (pipeline ["US"; "JP"]
                           [endpoint "JP 01" "a.example" 443;
                            endpoint "JP 02" "b.example" 443;
                            endpoint "US 01" "c.example" 443])
           ∧ TagOf ob = "US")
  ∨ ((1 < length (members [endpoint "JP 01" "a.example" 443;
                           endpoint "JP 02" "b.example" 443;
                           endpoint "US 01" "c.example" 443] "US"))%nat
     ∧ ∃ g, g ∈ groups (pipeline ["US"; "JP"]
                          [endpoint "JP 01" "a.example" 443;
                           endpoint "JP 02" "b.example" 443;
                           endpoint "US 01" "c.example" 443])
            ∧ Type_ (SelBase (Selector g)) = "selector"
            ∧ Tag (SelBase (Selector g)) = "US").
Proof.
  apply region_names_resolve.
  - intros i j ob ob' Hi Hj Hij Hlen.
    destruct i as [|[|[|i]]]; [| | |done]; injection Hi as <-;
      [vm_compute in Hlen; discriminate
      |vm_compute in Hlen; discriminate|].
    destruct j as [|[|[|j]]]; [| |done|done]; injection Hj as <-;
      vm_compute; discriminate.
  - unfold Collapse.visit_order. vm_compute.
    first [reflexivity | apply perm_swap].
  - vm_compute. apply list_elem_of_further, list_elem_of_here.
Defined.

(** ** The run as a whole *)

Section RunFacts.

Variable url_Parse : string → error + URL.
Variable unicode_So : Z → bool.
Variable os_ReadFile : string → error + string.
Variable Unmarshal_SelectorsConfig : string → error + list RawMessage.
Variable json_Decode : RawMessage → error + json.


End RunFacts.

(** ** Lines *)

Lemma Split_cons (s : string) (sep : ascii) :
  ∃ part parts, Split s sep = part :: parts.
Proof.
  induction s as [|c s (part & parts & IH)]; [by eexists _, _|].
  cbn [Split]. rewrite IH. destruct (decide (c = sep)); by eexists _, _.
Qed.

(** X21.  Splitting the decoded text into lines loses nothing and
    leaves no separator in a line: the lines, joined with the
    separator, are the text; no line holds the separator; and there is
    at least one line, an empty text giving one empty line. *)
Theorem Split_Join (s : string) (sep : ascii) :
  Join (Split s sep) (String sep "") = s
  ∧ Forall (λ line, LastIndexByte line sep = None) (Split s sep)
  ∧ Split s sep ≠ [].
Proof.
  induction s as [|c s (IHjoin & IHsep & IHne)].
  - split_and!; [done|by repeat constructor|done].
  - cbn [Split]. destruct (Split_cons s sep) as (part & parts & Hsplit).
    rewrite Hsplit in *. destruct (decide (c = sep)) as [->|Hc].
    + split_and!; [|by constructor|done].
      change (Join ("" :: part :: parts) (String sep ""))
        with ("" +:+ String sep "" +:+ Join (part :: parts) (String sep "")).
      by rewrite IHjoin.
    + apply Forall_cons in IHsep as [Hpart Hparts].
      split_and!; [|constructor; [|done]|done].
      * rewrite <- IHjoin. by destruct parts.
      * cbn [LastIndexByte]. rewrite Hpart. by rewrite decide_False.
Qed.

(** ** The further properties on examples *)

Lemma read_lines_skips_bad_line_witness :
  read_lines sample_url_Parse sample_So Registry.init
    (["trojan://p@a.example:443#SG%2001"]
     ++ "vmess://abc" :: ["trojan://p@b.example:443#SG%2001"])
  = read_lines sample_url_Parse sample_So Registry.init
      (["trojan://p@a.example:443#SG%2001"]
       ++ ["trojan://p@b.example:443#SG%2001"]).
Proof.
  apply read_lines_skips_bad_line. right. vm_compute. reflexivity.
Defined.

Lemma read_lines_index_inverse_witness :
  ∃ out indexMap,
    read_lines sample_url_Parse sample_So Registry.init
      ["trojan://p@a.example:443#SG%2001"; "trojan://p@b.example:443#SG%2001"]
    = Some (out, indexMap)
    ∧ (indexMap !! "b.example:443" = Some 1%nat
       ↔ ∃ ob, out !! 1%nat = Some ob
               ∧ outboundKey (Server ob) (ServerPort ob) = "b.example:443").
Proof.
  assert (∃ st, read_lines sample_url_Parse sample_So Registry.init
                  ["trojan://p@a.example:443#SG%2001";
                   "trojan://p@b.example:443#SG%2001"] = Some st)
    as [[out indexMap] Hst] by (eexists; vm_compute; reflexivity).
  exists out, indexMap. split; [exact Hst|].
  exact (read_lines_index_inverse sample_url_Parse sample_So _ out indexMap
           "b.example:443" 1%nat Hst).
Defined.

Lemma registry_run_idempotent_witness :
  Registry.run [endpoint "SG 01" "a.example" 443;
                endpoint "US 01" "b.example" 443;
                endpoint "SG 02" "a.example" 443]
  = Some [endpoint "SG 02" "a.example" 443; endpoint "US 01" "b.example" 443]
  ∧ Registry.run [endpoint "SG 02" "a.example" 443;
                  endpoint "US 01" "b.example" 443]
    = Some [endpoint "SG 02" "a.example" 443; endpoint "US 01" "b.example" 443].
Proof.
  assert (Registry.run [endpoint "SG 01" "a.example" 443;
                        endpoint "US 01" "b.example" 443;
                        endpoint "SG 02" "a.example" 443]
          = Some [endpoint "SG 02" "a.example" 443;
                  endpoint "US 01" "b.example" 443]) as Hrun
    by (vm_compute; reflexivity).
  split; [exact Hrun|]. exact (registry_run_idempotent _ _ Hrun).
Defined.

Lemma classify_tables_witness :
  ∃ rt ri ro,
    Classifier.classify [endpoint "JP 01" "a.example" 443;
                         endpoint "US 01" "b.example" 443;
                         endpoint "JP 02" "c.example" 443] = (rt, ri, ro)
    ∧ ro = ["JP"; "US"]
    ∧ NoDup ro
    ∧ rt !! "JP" = Some ["JP 01"; "JP 02"]
    ∧ ri !! "US" = Some 1%nat.
Proof.
  destruct (Classifier.classify [endpoint "JP 01" "a.example" 443;
                                 endpoint "US 01" "b.example" 443;
                                 endpoint "JP 02" "c.example" 443])
    as [[rt ri] ro] eqn:Hcl.
  exists rt, ri, ro. split; [reflexivity|].
  destruct (classify_tables _ rt ri ro Hcl) as (Hro & Hnd & Hri & Hin & _).
  assert (ro = ["JP"; "US"]) as Hro' by (rewrite Hro; vm_compute; reflexivity).
  split_and!; [exact Hro'|exact Hnd| |].
  - destruct (Hin "JP") as [-> _]; [rewrite Hro'; apply list_elem_of_here|].
    vm_compute. reflexivity.
  - apply Hri. rewrite Hro'. reflexivity.
Defined.

Lemma classify_partition_witness :
  ∃ rt ri ro,
    Classifier.classify [endpoint "JP 01" "a.example" 443;
                         endpoint "US 01" "b.example" 443;
                         endpoint "JP 02" "c.example" 443] = (rt, ri, ro)
    ∧ concat ((λ R, default [] (rt !! R)) <$> ro)
      ≡ₚ ["JP 01"; "US 01"; "JP 02"].
Proof.
  destruct (Classifier.classify [endpoint "JP 01" "a.example" 443;
                                 endpoint "US 01" "b.example" 443;
                                 endpoint "JP 02" "c.example" 443])
    as [[rt ri] ro] eqn:Hcl.
  exists rt, ri, ro. split; [reflexivity|].
  exact (classify_partition _ rt ri ro Hcl).
Defined.

Lemma group_members_exist_witness :
  (∃ ob, ob ∈ servers (pipeline ["JP"; "US"]
                         [endpoint "JP 01" "a.example" 443;
                          endpoint "JP 02" "b.example" 443;
                          endpoint "US 01" "c.example" 443])
         ∧ TagOf ob = "JP 02")
  ∨ (∃ g', g' ∈ groups (pipeline ["JP"; "US"]
                          [endpoint "JP 01" "a.example" 443;
                           endpoint "JP 02" "b.example" 443;
                           endpoint "US 01" "c.example" 443])
           ∧ Type_ (SelBase (Selector g')) = "urltest"
           ∧ Tag (SelBase (Selector g')) = "JP 02").
Proof.
  apply (group_members_exist ["JP"; "US"] _
           (Synth.urltest "JP" ["JP 01"; "JP 02"]) "JP 02").
  - vm_compute. apply list_elem_of_here.
  - vm_compute. apply list_elem_of_further, list_elem_of_here.
Defined.

Lemma collapse_correct_without_collision_witness :
  servers (pipeline ["JP"; "US"]
             [endpoint "JP 01" "a.example" 443;
              endpoint "JP 02" "b.example" 443;
              endpoint "US 01" "c.example" 443])
  = [endpoint "JP 01" "a.example" 443;
     endpoint "JP 02" "b.example" 443;
     endpoint "US" "c.example" 443]
  ∧ regionTags (pipeline ["JP"; "US"]
                  [endpoint "JP 01" "a.example" 443;
                   endpoint "JP 02" "b.example" 443;
                   endpoint "US 01" "c.example" 443]) !! "US" = Some ["US"].
Proof.
  destruct (collapse_correct_without_collision ["JP"; "US"]
              [endpoint "JP 01" "a.example" 443;
               endpoint "JP 02" "b.example" 443;
               endpoint "US 01" "c.example" 443]) as [Hservers Htags].
  - intros i j ob ob' Hi Hj Hij Hlen.
    destruct i as [|[|[|i]]]; [| | |done]; injection Hi as <-;
      [vm_compute in Hlen; discriminate
      |vm_compute in Hlen; discriminate|].
    destruct j as [|[|[|j]]]; [| |done|done]; injection Hj as <-;
      vm_compute; discriminate.
  - unfold Collapse.visit_order. vm_compute.
    first [reflexivity | apply perm_swap].
  - split; [rewrite Hservers; vm_compute; reflexivity|].
    apply Htags. vm_compute. reflexivity.
Defined.

(** The publisher on a directory with the two generated files, the
    template and a subdirectory: the two generated files are copied,
    in the order of the listing, and the destination holds their
    content. *)
Example exportConfig_sample :
  let '(st, err) :=
    exportConfig SampleFS.world SampleFS.File SampleFS.ReadDir
      SampleFS.MkdirAll SampleFS.Open SampleFS.Create SampleFS.Copy
      SampleFS.Close SampleFS.Join
      [("config/servers.json", "S"); ("config/groups.json", "G");
       ("config/selectors.scheme.json", "T")]
      "config" "/etc/sing-box" in
  err = None
  ∧ exported _ _ st
    = [("config/servers.json", "/etc/sing-box/servers.json");
       ("config/groups.json", "/etc/sing-box/groups.json")]
  ∧ SampleFS.content (fs _ _ st) "/etc/sing-box/servers.json" = Some "S"
  ∧ SampleFS.content (fs _ _ st) "/etc/sing-box/groups.json" = Some "G"
  ∧ SampleFS.content (fs _ _ st) "/etc/sing-box/selectors.scheme.json" = None.
Proof. by vm_compute. Qed.
